(** * denkhaus/es: the Elasticsearch client wrapper of [core/client.go]

    A shallow embedding of the wrapper's cursor enumeration
    ([EnumerateItems]), point lookups ([UnmarshalOne],
    [UnmarshalMostRecent]) and index discovery ([GetIndices]), with the
    properties they have.

    Conventions.
    - A Go value of type [error] is an [option error]: [None] is [nil].
    - A Go [string] is a byte string ([string] of [ascii]).
    - [int64] is a [Z] kept in range by [wrap64]; [int] indices are [nat].
    - The engine client, the HTTP client, the JSON decoder, package
      [regexp] and the context are the environment: what they answer is
      an input of the model.  The steps of an enumeration pass are
      recorded in a trace, in the order they happen.
    - A run-time panic (nil dereference, index out of range) is a
      result of its own, [Panicked]. *)

From Stdlib Require Import ZArith Ascii String List.
From stdpp Require Import base option list strings gmap.

Local Open Scope Z_scope.

(** ** Errors *)

(** The error values the file declares or meets.  [Opaque] stands for any
    error produced by a library or by the caller's callback, [Wrap] is
    [errors.Wrap], [MultiError] is a pointer to
    [multierror.Error]. *)
#[warnings="-register-all"]
Inductive error : Type :=
| io_EOF
| context_Canceled
| context_DeadlineExceeded
| ErrNotAcknowledged
| ErrToManyHits
| ErrEmptyInput
| ErrEmptyResult
| ErrEmptyResponse
| Opaque (msg : string)
| Wrap (cause : error) (message : string)
| MultiError (Errors : list error).

(** [errors.Wrap(err, message)]: nil stays nil. *)
Definition errors_Wrap (err : option error) (message : string) : option error :=
  match err with
  | None => None
  | Some e => Some (Wrap e message)
  end.

(** [multierror.Append(errs, err)] on the error list of [errs]: an
    appended multi-error is flattened, anything else is added
    at the end. *)
Definition multierror_Append (Errors : list error) (err : error) : list error :=
  match err with
  | MultiError es => Errors ++ es
  | _ => Errors ++ [err]
  end.

(** Method [ErrorOrNil] of [multierror.Error]. *)
Definition ErrorOrNil (Errors : list error) : option error :=
  match Errors with
  | [] => None
  | _ :: _ => Some (MultiError Errors)
  end.

(** [err != io.EOF]: comparison with the sentinel itself, so a wrapped
    [io.EOF] is a different value. *)
Definition is_EOF (err : error) : bool :=
  match err with
  | io_EOF => true
  | _ => false
  end.

(** ** Run-time results *)

Inductive panic : Type :=
| NilDereference
| IndexOutOfRange (index len : nat).

Inductive Result : Type :=
| Returned (err : option error)
| Panicked (p : panic).

(** ** Search results of the engine client *)

Definition RawMessage := string.

Record SearchHit : Type := { Source : RawMessage }.

Record TotalHits : Type := { Value : Z; Relation : string }.

(** [elastic.SearchHits]; [sh_TotalHits] is a pointer and may be nil.
    The elements of [sh_Hits] are the hits the decoder built from the
    objects of the hits array, none of them nil: an array with a JSON
    null in it, which decodes to a nil element, is outside the model. *)
Record SearchHits : Type := {
  sh_TotalHits : option TotalHits;
  sh_Hits : list SearchHit
}.

(** [elastic.SearchResult]; [Hits] is a pointer and may be nil. *)
Record SearchResult : Type := {
  Hits : option SearchHits;
  ScrollId : string
}.

(** Method [TotalHits()] of [elastic.SearchResult]: nil-safe at every
    level, 0 when anything is missing. *)
Definition SearchResult_TotalHits (r : option SearchResult) : Z :=
  match r with
  | Some res =>
      match Hits res with
      | Some sh =>
          match sh_TotalHits sh with
          | Some th => Value th
          | None => 0
          end
      | None => 0
      end
  | None => 0
  end.

(** [elastic.NewFieldSort(field)] sorts ascending; [.Desc()] flips it. *)
Record FieldSort : Type := { fieldName : string; ascending : bool }.

Definition NewFieldSort (field : string) : FieldSort :=
  {| fieldName := field; ascending := true |}.

Definition Desc (s : FieldSort) : FieldSort :=
  {| fieldName := fieldName s; ascending := false |}.

(** ** Point lookups: [UnmarshalOne] and [UnmarshalMostRecent] *)

Section Unmarshal.
(** The query DSL and the caller's target structure are opaque. *)
Context {Query Target : Type}.

(** The request assembled by [c.client.Search(..).Query(..).Size(..)]. *)
Record SearchRequest : Type := {
  rq_Index : string;
  rq_Query : Query;
  rq_Size : option Z;
  rq_SortBy : list FieldSort
}.

(** [svc.Do(ctx)]: a result pointer and an error. *)
Variable searchDo : SearchRequest -> option SearchResult * option error.

(** [json.Unmarshal(data, target)]: writes through the target pointer
    and reports an error. *)
Variable json_Unmarshal : RawMessage -> Target -> option error * Target.

(** What a lookup leaves behind: its result, the target, and the
    payloads handed to the decoder (in call order). *)
Record Lookup : Type := {
  lk_result : Result;
  lk_target : Target;
  lk_decoded : list RawMessage
}.

(** The body both lookups share word for word, from [svc.Do(ctx)] on. *)
Definition unmarshalFirst (rq : SearchRequest) (target : Target) : Lookup :=
  let '(res, err) := searchDo rq in
  match err with
  | Some e =>
      {| lk_result := Returned (errors_Wrap (Some e) "Do");
         lk_target := target; lk_decoded := [] |}
  | None =>
      if SearchResult_TotalHits res =? 0 then
        {| lk_result := Returned (Some ErrEmptyResult);
           lk_target := target; lk_decoded := [] |}
      else
        (* res.Hits.Hits[0].Source *)
        match res with
        | None =>
            {| lk_result := Panicked NilDereference;
               lk_target := target; lk_decoded := [] |}
        | Some r =>
            match Hits r with
            | None =>
                {| lk_result := Panicked NilDereference;
                   lk_target := target; lk_decoded := [] |}
            | Some sh =>
                match sh_Hits sh with
                | [] =>
                    {| lk_result := Panicked (IndexOutOfRange 0 0);
                       lk_target := target; lk_decoded := [] |}
                | hit :: _ =>
                    let '(uerr, target') := json_Unmarshal (Source hit) target in
                    {| lk_result := Returned (errors_Wrap uerr "Unmarshal");
                       lk_target := target';
                       lk_decoded := [Source hit] |}
                end
            end
        end
  end.

(** [c.client.Search(indexName).Query(query).Size(1)]. *)
Definition requestOne (indexName : string) (query : Query) : SearchRequest :=
  {| rq_Index := indexName; rq_Query := query;
     rq_Size := Some 1; rq_SortBy := [] |}.

(** [c.client.Search(indexName).Query(query).Size(1).SortBy(sorter)] with
    [sorter := elastic.NewFieldSort(timestampField).Desc()]. *)
Definition requestMostRecent (indexName : string) (query : Query)
    (timestampField : string) : SearchRequest :=
  let sorter := Desc (NewFieldSort timestampField) in
  {| rq_Index := indexName; rq_Query := query;
     rq_Size := Some 1; rq_SortBy := [sorter] |}.

Definition UnmarshalOne (indexName : string) (query : Query)
    (target : Target) : Lookup :=
  let svc := requestOne indexName query in
  unmarshalFirst svc target.

Definition UnmarshalMostRecent (indexName : string) (query : Query)
    (timestampField : string) (target : Target) : Lookup :=
  let svc := requestMostRecent indexName query timestampField in
  unmarshalFirst svc target.

(** What reading [res.Hits.Hits[0]] amounts to for a hits array: with a
    first hit the decoder gets its source and the lookup returns the
    wrapped decoder error; with none the index is out of range. *)
Definition firstHitOutcome (hits : list SearchHit) (target : Target)
    (l : Lookup) : Prop :=
  match hits with
  | [] =>
      l = {| lk_result := Panicked (IndexOutOfRange 0 0);
             lk_target := target; lk_decoded := [] |}
  | hit :: _ =>
      l = {| lk_result :=
               Returned (errors_Wrap (json_Unmarshal (Source hit) target).1
                           "Unmarshal");
             lk_target := (json_Unmarshal (Source hit) target).2;
             lk_decoded := [Source hit] |}
  end.

End Unmarshal.

(** ** Cursor enumeration: [ScrollService], [ClearScroll], [EnumerateItems] *)

(** [nCurrentItem] is an [int64]: [++] wraps around. *)
Definition wrap64 (z : Z) : Z := (z + 2 ^ 63) mod 2 ^ 64 - 2 ^ 63.

(** [multierror.Append(errs, err)] as the loop uses it: a nil [err] is
    skipped. *)
Definition multierror_AppendOpt (Errors : list error) (err : option error)
    : list error :=
  match err with
  | None => Errors
  | Some e => multierror_Append Errors e
  end.

Section Enumerate.
(** The query DSL, the sorter and the state the caller's callback
    closes over are opaque. *)
Context {Query Sorter CbState : Type}.

(** The state of an [elastic.ScrollService] a fetch is made with: what
    this file sets, and the cursor id, which [Do] itself overwrites with
    the id of every page it returns. *)
Record ScrollSvc : Type := {
  svc_index : string;
  svc_query : Query;
  svc_sorters : list Sorter;
  svc_scrollId : string
}.

Definition svc_ScrollId (svc : ScrollSvc) (scrollID : string) : ScrollSvc :=
  {| svc_index := svc_index svc; svc_query := svc_query svc;
     svc_sorters := svc_sorters svc; svc_scrollId := scrollID |}.

Definition ScrollService (index : string) (query : Query)
    (sorter : option Sorter) : ScrollSvc :=
  let svc := {| svc_index := index; svc_query := query;
                svc_sorters := []; svc_scrollId := "" |} in
  match sorter with
  | Some s =>
      {| svc_index := svc_index svc; svc_query := svc_query svc;
         svc_sorters := svc_sorters svc ++ [s];
         svc_scrollId := svc_scrollId svc |}
  | None => svc
  end.

(** The environment of one enumeration pass.
    - [scrollDo]: the answers of the successive [svc.Do(ctx)] calls;
      once they are used up the engine reports end of stream, [io.EOF].
    - [ctxErr n]: what the [n]-th [select] on [ctx.Done()] sees (counted
      from 0): [None] while the context is live, [Some e] once it is
      done, [e] being [ctx.Err()].
    - [clearScrollDo id]: the error of [c.client.ClearScroll(id).Do(ctx)]. *)
Record Engine : Type := {
  scrollDo : list (option SearchResult * option error);
  ctxErr : nat -> option error;
  clearScrollDo : string -> option error
}.

(** One invocation of the callback: its four arguments and what it
    returned. *)
Record Call : Type := {
  c_item : RawMessage;
  c_ordinal : Z;
  c_total : Z;
  c_commit : bool;
  c_err : option error
}.

(** The observable steps of a pass, in the order they happen. *)
Inductive Event : Type :=
| EvDo (svc : ScrollSvc) (res : option SearchResult) (err : option error)
| EvItem (c : Call)
| EvSelect (done : option error)
| EvClearScroll (scrollID : string) (err : option error)
| EvDeferredClear.

(** The caller's callback, with the state it closes over. *)
Variable onItem :
  RawMessage -> Z -> Z -> bool -> CbState -> option error * CbState.

(** The local variables of [EnumerateItems], and the callback's state. *)
Record Locals : Type := {
  errs : list error;
  svc : ScrollSvc;
  nCurrentItem : Z;
  scrollID : string;
  cbState : CbState
}.

(** [for idx, hit := range hits { ... }], from index [idx] on. *)
Fixpoint deliver (hits : list SearchHit) (idx nBatchItems : nat)
    (nTotalItems : Z) (st : Locals) : list Event * Locals :=
  match hits with
  | [] => ([], st)
  | hit :: rest =>
      let n := wrap64 (nCurrentItem st + 1) in
      let commit := Z.of_nat idx =? Z.of_nat nBatchItems - 1 in
      let '(err, cb) := onItem (Source hit) n nTotalItems commit (cbState st) in
      let ev := EvItem {| c_item := Source hit; c_ordinal := n;
                          c_total := nTotalItems; c_commit := commit;
                          c_err := err |} in
      match err with
      | Some e =>
          ([ev],
           {| errs := multierror_AppendOpt (errs st)
                        (errors_Wrap (Some e) "onItem");
              svc := svc st; nCurrentItem := n; scrollID := scrollID st;
              cbState := cb |})
      | None =>
          let '(evs, st') :=
            deliver rest (S idx) nBatchItems nTotalItems
              {| errs := errs st; svc := svc st; nCurrentItem := n;
                 scrollID := scrollID st; cbState := cb |} in
          (ev :: evs, st')
      end
  end.

(** How the [for] loop is left. *)
Inductive Exit : Type :=
| ExitLoop
| ExitReturn (err : option error)
| ExitPanic (p : panic).

(** [res.Hits.Hits] and [res.Hits.TotalHits.Value]: [None] where one of
    the pointers on the way is nil. *)
Definition derefPage (res : option SearchResult)
    : option (SearchResult * list SearchHit * Z) :=
  match res with
  | None => None
  | Some r =>
      match Hits r with
      | None => None
      | Some sh =>
          match sh_TotalHits sh with
          | None => None
          | Some th => Some (r, sh_Hits sh, Value th)
          end
      end
  end.

(** [if scrollID != "" { svc = svc.ScrollId(scrollID) }]. *)
Definition enter (st : Locals) : Locals :=
  if String.eqb (scrollID st) "" then st
  else {| errs := errs st; svc := svc_ScrollId (svc st) (scrollID st);
          nCurrentItem := nCurrentItem st; scrollID := scrollID st;
          cbState := cbState st |}.

(** What [svc.Do] leaves behind: it stores in the service the cursor id
    of the answer it hands back, whether it hands it back with a nil
    error or with [io.EOF]; a call that hands back no answer stores
    nothing. *)
Definition stored (st : Locals) (res : option SearchResult) : Locals :=
  match res with
  | Some r =>
      {| errs := errs st; svc := svc_ScrollId (svc st) (ScrollId r);
         nCurrentItem := nCurrentItem st; scrollID := scrollID st;
         cbState := cbState st |}
  | None => st
  end.

(** [for len(errs.Errors) == 0 { ... }]: [responses] are the answers
    still to come, [nSelect] counts the selects done so far. *)
Fixpoint scroll (ctx : nat -> option error)
    (responses : list (option SearchResult * option error))
    (nSelect : nat) (st : Locals) : list Event * Exit * Locals :=
  if negb (length (errs st) =? 0)%nat then ([], ExitLoop, st)
  else
    let st := enter st in
    match responses with
    | [] => ([EvDo (svc st) None (Some io_EOF)], ExitLoop, st)
    | (res, Some err) :: _ =>
        let st1 := stored st res in
        let st' :=
          if is_EOF err then st1
          else {| errs := multierror_AppendOpt (errs st1)
                            (errors_Wrap (Some err) "Do");
                  svc := svc st1; nCurrentItem := nCurrentItem st1;
                  scrollID := scrollID st1; cbState := cbState st1 |} in
        ([EvDo (svc st) res (Some err)], ExitLoop, st')
    | (res, None) :: rest =>
        let do := EvDo (svc st) res None in
        match derefPage res with
        | None => ([do], ExitPanic NilDereference, stored st res)
        | Some (r, hits, nTotalItems) =>
            (* [Do] has stored the answer's cursor id in the service;
               [scrollID = res.ScrollId] *)
            let st1 :=
              {| errs := errs st;
                 svc := svc_ScrollId (svc st) (ScrollId r);
                 nCurrentItem := nCurrentItem st;
                 scrollID := ScrollId r; cbState := cbState st |} in
            let '(evs, st2) :=
              deliver hits 0 (length hits) nTotalItems st1 in
            match ctx nSelect with
            | Some e =>
                (do :: evs ++ [EvSelect (Some e)], ExitReturn (Some e), st2)
            | None =>
                let '(evs', ex, st3) := scroll ctx rest (S nSelect) st2 in
                (do :: evs ++ EvSelect None :: evs', ex, st3)
            end
        end
    end.

(** [ClearScroll]: nothing to release without a cursor. *)
Definition ClearScroll (eng : Engine) (scrollID : string)
    : list Event * option error :=
  if String.eqb scrollID "" then ([], None)
  else
    let err := clearScrollDo eng scrollID in
    ([EvClearScroll scrollID err], err).

(** One pass: its result, everything that happened, and the locals
    when the function is left. *)
Record Run : Type := {
  result : Result;
  trace : list Event;
  final : Locals
}.

Definition EnumerateItems (eng : Engine) (indexName : string) (query : Query)
    (sorter : option Sorter) (cb0 : CbState) : Run :=
  let st0 := {| errs := []; svc := ScrollService indexName query sorter;
                nCurrentItem := 0; scrollID := ""; cbState := cb0 |} in
  let '(evs, ex, st) := scroll (ctxErr eng) (scrollDo eng) 0 st0 in
  (* [defer svc.Clear(ctx)] runs last on every way out; its result is
     dropped. *)
  match ex with
  | ExitReturn err =>
      {| result := Returned err; trace := evs ++ [EvDeferredClear];
         final := st |}
  | ExitPanic p =>
      {| result := Panicked p; trace := evs ++ [EvDeferredClear];
         final := st |}
  | ExitLoop =>
      let '(cevs, cerr) := ClearScroll eng (scrollID st) in
      let st' :=
        {| errs := multierror_AppendOpt (errs st)
                     (errors_Wrap cerr "ClearScroll");
           svc := svc st; nCurrentItem := nCurrentItem st;
           scrollID := scrollID st; cbState := cbState st |} in
      {| result := Returned (ErrorOrNil (errs st'));
         trace := evs ++ cevs ++ [EvDeferredClear];
         final := st' |}
  end.

(** The locals after an invocation that returned nil. *)
Definition afterCall (st : Locals) (n : Z) (cb : CbState) : Locals :=
  {| errs := errs st; svc := svc st; nCurrentItem := n;
     scrollID := scrollID st; cbState := cb |}.

(** The locals once a page with cursor id [id] is in: [ScrollService.Do]
    has stored the id in the service, empty or not, and the loop has
    stored it in [scrollID].  And the locals once an error has joined
    the aggregate. *)
Definition withScrollID (st : Locals) (id : string) : Locals :=
  {| errs := errs st; svc := svc_ScrollId (svc st) id;
     nCurrentItem := nCurrentItem st;
     scrollID := id; cbState := cbState st |}.

Definition withErr (st : Locals) (e : error) : Locals :=
  {| errs := errs st ++ [e]; svc := svc st; nCurrentItem := nCurrentItem st;
     scrollID := scrollID st; cbState := cbState st |}.

(** The locals when the loop is first reached. *)
Definition initial (indexName : string) (query : Query)
    (sorter : option Sorter) (cb0 : CbState) : Locals :=
  {| errs := []; svc := ScrollService indexName query sorter;
     nCurrentItem := 0; scrollID := ""; cbState := cb0 |}.

(** *** Views of a trace *)

(** The callback invocations of a trace, in order. *)
Definition calls (tr : list Event) : list Call :=
  omap (fun ev => match ev with EvItem c => Some c | _ => None end) tr.

(** The entry a step adds to the aggregate, if it failed: a fetch error
    other than end of stream, a callback error, a release error. *)
Definition failure (ev : Event) : option error :=
  match ev with
  | EvDo _ _ (Some e) => if is_EOF e then None else Some (Wrap e "Do")
  | EvItem c => errors_Wrap (c_err c) "onItem"
  | EvClearScroll _ err => errors_Wrap err "ClearScroll"
  | _ => None
  end.

Definition failures (tr : list Event) : list error := omap failure tr.

(** A select of the trace saw the context done. *)
Definition cancelled (tr : list Event) : bool :=
  existsb (fun ev => match ev with EvSelect (Some _) => true | _ => false end)
    tr.

(** Neither a fetch nor a callback invocation. *)
Definition quiet (ev : Event) : bool :=
  match ev with
  | EvDo _ _ _ | EvItem _ => false
  | _ => true
  end.

(** The invocations at the head of a trace. *)
Fixpoint itemsPrefix (tr : list Event) : list Call :=
  match tr with
  | EvItem c :: tr' => c :: itemsPrefix tr'
  | _ => []
  end.

(** The pages of a trace: every fetch that came back without an error,
    with the invocations that followed it. *)
Fixpoint pages (tr : list Event) : list (option SearchResult * list Call) :=
  match tr with
  | [] => []
  | EvDo _ res None :: tr' => (res, itemsPrefix tr') :: pages tr'
  | _ :: tr' => pages tr'
  end.

(** The hits of a fetched page (none when the page cannot be read). *)
Definition hitsOf (res : option SearchResult) : list SearchHit :=
  match derefPage res with
  | Some (_, hits, _) => hits
  | None => []
  end.

(** A fetch answer the loop can read: with a nil error come the hits
    section and its total. *)
Definition pageOk (resp : option SearchResult * option error) : bool :=
  match resp with
  | (res, None) => match derefPage res with Some _ => true | None => false end
  | (_, Some _) => true
  end.

(** The selects of a trace, and its readable pages. *)
Definition selects (tr : list Event) : list (option error) :=
  omap (fun ev => match ev with EvSelect d => Some d | _ => None end) tr.

Definition isPage (ev : Event) : bool :=
  match ev with
  | EvDo _ res None => pageOk (res, None)
  | _ => false
  end.

(** How one page was delivered: the invocations [cs] took the hits in
    order from the first one on, the commit flag is set on the page's
    final hit and on no other, and only the last invocation made may
    have failed. *)
Definition pageDelivery (hits : list SearchHit) (cs : list Call) : Prop :=
  (length cs <= length hits)%nat /\
  map c_item cs = map Source (take (length cs) hits) /\
  (forall (j : nat) (c : Call), cs !! j = Some c ->
     c_commit c = bool_decide (S j = length hits) /\
     (c_err c <> None -> S j = length cs)) /\
  ((length cs < length hits)%nat ->
     exists c, last cs = Some c /\ c_err c <> None).

(** A trace past the invocations at its head. *)
Fixpoint afterItems (tr : list Event) : list Event :=
  match tr with
  | EvItem _ :: tr' => afterItems tr'
  | _ => tr
  end.

(** The select sits at the page boundary: what follows the fetch of a
    readable page is the delivery of that page (to its end, or up to a
    failed invocation), then a select, and no invocation comes between
    that select and the next fetch. *)
Fixpoint checkedAtBoundary (tr : list Event) : Prop :=
  match tr with
  | [] => True
  | EvDo _ res None :: tr' =>
      (pageOk (res, None) = true ->
       pageDelivery (hitsOf res) (itemsPrefix tr') /\
       exists d rest,
         afterItems tr' = EvSelect d :: rest /\ itemsPrefix rest = []) /\
      checkedAtBoundary tr'
  | _ :: tr' => checkedAtBoundary tr'
  end.

(** The number of readable pages fetched in a trace. *)
Definition nPages (tr : list Event) : nat := length (List.filter isPage tr).

(** After a step that failed, the rest of the trace is quiet. *)
Fixpoint stopsAfterFailure (tr : list Event) : Prop :=
  match tr with
  | [] => True
  | ev :: tr' =>
      (failure ev <> None -> Forall (fun ev' => quiet ev' = true) tr') /\
      stopsAfterFailure tr'
  end.

(** After a select that saw the context done, only the deferred clear
    follows, and the pass returns what the context reported. *)
Fixpoint cancelEnds (res : Result) (tr : list Event) : Prop :=
  match tr with
  | [] => True
  | EvSelect (Some e) :: tr' =>
      tr' = [EvDeferredClear] /\ res = Returned (Some e)
  | _ :: tr' => cancelEnds res tr'
  end.

(** What follows the loop: the deferred clear, after the explicit
    release when there is a cursor to release. *)
Definition closing (tail : list Event) : Prop :=
  tail = [EvDeferredClear] \/
  exists id err, tail = [EvClearScroll id err; EvDeferredClear].

(** How many invocations of a page had the commit flag set. *)
Definition commitCount (cs : list Call) : nat :=
  length (List.filter c_commit cs).

(** [n] times [nCurrentItem++]. *)
Fixpoint bump (n : nat) (z : Z) : Z :=
  match n with
  | O => z
  | S n' => bump n' (wrap64 (z + 1))
  end.

End Enumerate.

(** ** Text helpers of the Go library used by [GetIndices]

    Strings are byte strings, as in Go. *)

Definition byte_in (c : ascii) (codes : list N) : bool :=
  existsb (N.eqb (N_of_ascii c)) codes.

(** The [asciiSpace] table of package [strings]: tab, line feed, vertical
    tab, form feed, carriage return, space. *)
Definition asciiSpace (c : ascii) : bool := byte_in c [9; 10; 11; 12; 13; 32]%N.

Fixpoint dropWhile {A} (p : A -> bool) (l : list A) : list A :=
  match l with
  | [] => []
  | x :: l' => if p x then dropWhile p l' else l
  end.

(** The UTF-8 encodings of the white space of [unicode.IsSpace] above
    the ASCII range: U+0085, U+00A0, U+1680, U+2000 to U+200A, U+2028,
    U+2029, U+202F, U+205F, U+3000. *)
Definition unicodeSpaces : list (list N) :=
  [ [194; 133]; [194; 160]; [225; 154; 128];
    [226; 128; 128]; [226; 128; 129]; [226; 128; 130]; [226; 128; 131];
    [226; 128; 132]; [226; 128; 133]; [226; 128; 134]; [226; 128; 135];
    [226; 128; 136]; [226; 128; 137]; [226; 128; 138];
    [226; 128; 168]; [226; 128; 169]; [226; 128; 175];
    [226; 129; 159]; [227; 128; 128] ]%N.

(** [codes] are the first bytes of [l]. *)
Fixpoint startsWith (codes : list N) (l : list ascii) : bool :=
  match codes, l with
  | [], _ => true
  | _ :: _, [] => false
  | n :: codes', c :: l' => N.eqb (N_of_ascii c) n && startsWith codes' l'
  end.

(** The width in bytes of the white-space rune [l] starts with, 0 when
    it starts with none; [encodings] are the white-space runes above the
    ASCII range.  A byte sequence that is not valid UTF-8 decodes to
    [utf8.RuneError], which is not white space. *)
Definition spaceWidth (encodings : list (list N)) (l : list ascii) : nat :=
  match l with
  | [] => 0%nat
  | c :: _ =>
      if asciiSpace c then 1%nat
      else
        match List.find (fun codes => startsWith codes l) encodings with
        | Some codes => length codes
        | None => 0%nat
        end
  end.

(** The white-space runes at the head of [l] go. *)
Fixpoint trimSpaces (encodings : list (list N)) (fuel : nat) (l : list ascii)
    : list ascii :=
  match fuel with
  | O => l
  | S fuel' =>
      match spaceWidth encodings l with
      | O => l
      | S w => trimSpaces encodings fuel' (drop (S w) l)
      end
  end.

(** [strings.TrimSpace]: leading and trailing white space, as Unicode
    defines it, goes.  At the end of the string the runes are decoded
    backwards, which finds the same encodings read last byte first. *)
Definition TrimSpace (s : string) : string :=
  let l := list_ascii_of_string s in
  let l1 := trimSpaces unicodeSpaces (length l) l in
  let r := trimSpaces (map (@rev N) unicodeSpaces) (length l1) (rev l1) in
  string_of_list_ascii (rev r).

(** [dropCR] of package [bufio]: one trailing carriage return goes. *)
Definition dropCR (revLine : list ascii) : list ascii :=
  match revLine with
  | c :: rest => if byte_in c [13]%N then rev rest else rev revLine
  | [] => []
  end.

(** [bufio.MaxScanTokenSize]: a line and its newline have to fit a
    buffer of this many bytes. *)
Definition MaxScanTokenSize : N := 65536.

(** [bufio.ScanLines] run over the data by a scanner whose buffer grows
    to [max] bytes: [cur] is the line being read, last byte first, and
    [n] its length.  A final line without a newline is a line too,
    unless it is empty.  When the buffer is full and holds no newline,
    [Scan] gives up ([bufio.ErrTooLong]) and the lines from there on are
    lost. *)
Fixpoint scanLinesFrom (max : N) (cur : list ascii) (n : N)
    (data : list ascii) : list string :=
  match data with
  | [] =>
      match cur with
      | [] => []
      | _ :: _ => [string_of_list_ascii (dropCR cur)]
      end
  | c :: rest =>
      if byte_in c [10]%N
      then string_of_list_ascii (dropCR cur) :: scanLinesFrom max [] 0 rest
      else if (max <=? n + 1)%N then []
      else scanLinesFrom max (c :: cur) (n + 1) rest
  end.

(** [for scanner.Scan() { lines = append(lines, scanner.Text()) }]:
    [scanner.Err()] is never looked at, so a line that is too long ends
    the list silently. *)
Definition scanLines (body : string) : list string :=
  scanLinesFrom MaxScanTokenSize [] 0 (list_ascii_of_string body).

(** ** Index discovery: [GetIndices] *)

Record ElasticClientImpl : Type := {
  endpoint : string;
  userName : string;
  password : string
}.

Record Request : Type := {
  Method : string;
  URL : string;
  BasicAuth : option (string * string)
}.

Definition SetBasicAuth (req : Request) (user pass : string) : Request :=
  {| Method := Method req; URL := URL req; BasicAuth := Some (user, pass) |}.

(** A response: [Body] is what reading the body yields until it ends or
    fails; the scanner takes a read error for the end of the data. *)
Record Response : Type := { Body : string }.

(** The pattern compiled for a prefix.  The source writes each backslash
    doubled, which is Go's escape for a single one. *)
Definition indexPattern (prefix : string) : string :=
  "\s" +:+ prefix +:+ "-(\d)*\s".

Section GetIndices.
(** Package [regexp]: compiled patterns, [regexp.Compile] ([None] is a
    compile error) and [FindString] (the leftmost match, empty when
    there is none). *)
Context {Regexp : Type}.
Variable regexp_Compile : string -> option Regexp.
Variable FindString : Regexp -> string -> string.

(** Package [net/http]: the error of [http.NewRequest] for a method and
    a URL, and [client.Do]. *)
Variable http_NewRequest : string -> string -> option error.
Variable client_Do : Request -> Response + error.

(** [for _, line := range lines { ... }] for one compiled prefix. *)
Fixpoint matchLines (r : Regexp) (prefix : string) (lines : list string)
    (result : gmap string (list string)) : gmap string (list string) :=
  match lines with
  | [] => result
  | line :: rest =>
      let match_ := FindString r line in
      let result' :=
        if negb (String.length match_ =? 0)%nat
        then <[prefix := default [] (result !! prefix) ++ [TrimSpace match_]]>
               result
        else result in
      matchLines r prefix rest result'
  end.

(** [for _, prefix := range prefixes { ... }]: a prefix that does not
    compile returns from the function. *)
Fixpoint matchPrefixes (lines : list string) (prefixes : list string)
    (result : gmap string (list string)) : gmap string (list string) :=
  match prefixes with
  | [] => result
  | prefix :: rest =>
      match regexp_Compile (indexPattern prefix) with
      | None => result
      | Some r => matchPrefixes lines rest (matchLines r prefix lines result)
      end
  end.

(** The request for the catalog, with [req.SetBasicAuth] applied. *)
Definition catalogURL (c : ElasticClientImpl) : string :=
  endpoint c +:+ "/_cat/indices?v&s=index".

Definition catalogRequest (c : ElasticClientImpl) : Request :=
  SetBasicAuth {| Method := "GET"; URL := catalogURL c; BasicAuth := None |}
    (userName c) (password c).

(** The map is [None] where the function returns a nil map. *)
Definition GetIndices (c : ElasticClientImpl) (prefixes : list string)
    : option (gmap string (list string)) * option error :=
  let result : gmap string (list string) := ∅ in
  match http_NewRequest "GET" (catalogURL c) with
  | Some err => (None, errors_Wrap (Some err) "NewRequest")
  | None =>
      let req := catalogRequest c in
      match client_Do req with
      | inr err => (Some result, None)
      | inl resp =>
          let lines := scanLines (Body resp) in
          (Some (matchPrefixes lines prefixes result), None)
      end
  end.

(** What it takes to be a key: the prefix compiles and its pattern has a
    match in some line. *)
Definition hasMatch (lines : list string) (prefix : string) : Prop :=
  exists r line,
    regexp_Compile (indexPattern prefix) = Some r /\ line ∈ lines /\
    FindString r line <> "".

End GetIndices.

(** ** Package [regexp], for a fragment of its syntax

    The fragment: literal bytes, [.], the Perl classes [\d \s \w] and
    their negations, escaped punctuation, groups, alternation and the
    greedy postfix operators [* + ?].  A pattern that uses anything else
    (brackets, braces, anchors, flags, lazy operators, other escapes,
    bytes above 127) is reported as [Unsupported]: the model says nothing
    about it.  Matching is leftmost-first, as the package documents: the
    match a backtracking search finds first.  The subject is taken byte
    by byte, which is how the package reads ASCII text. *)
Module regexp.

Inductive charset : Type :=
| CsLit (c : ascii)
| CsAnyNotNL
| CsDigit
| CsSpace
| CsWord
| CsNot (cs : charset).

Definition between (lo hi : N) (c : ascii) : bool :=
  ((lo <=? N_of_ascii c) && (N_of_ascii c <=? hi))%N.

Fixpoint cs_mem (cs : charset) (c : ascii) : bool :=
  match cs with
  | CsLit c' => Ascii.eqb c' c
  | CsAnyNotNL => negb (byte_in c [10]%N)
  | CsDigit => between 48 57 c
  | CsSpace => byte_in c [9; 10; 12; 13; 32]%N
  | CsWord => between 48 57 c || between 65 90 c || between 97 122 c
              || byte_in c [95]%N
  | CsNot cs' => negb (cs_mem cs' c)
  end.

Inductive regex : Type :=
| REmpty
| RSet (cs : charset)
| RCat (r1 r2 : regex)
| RAlt (r1 r2 : regex)
| RStar (r : regex)
| RPlus (r : regex)
| RQuest (r : regex)
| RGroup (r : regex).

Inductive parsed (A : Type) : Type :=
| POk (a : A)
| SyntaxError
| Unsupported.
Arguments POk {A} a.
Arguments SyntaxError {A}.
Arguments Unsupported {A}.

Definition is_op (c : ascii) : bool := byte_in c [42; 43; 63]%N.

Definition is_punct (c : ascii) : bool :=
  (N_of_ascii c <? 128)%N
  && negb (between 48 57 c || between 65 90 c || between 97 122 c).

(** The atom after a backslash. *)
Definition parseEscape (c : ascii) : parsed regex :=
  if Ascii.eqb c "d" then POk (RSet CsDigit)
  else if Ascii.eqb c "s" then POk (RSet CsSpace)
  else if Ascii.eqb c "w" then POk (RSet CsWord)
  else if Ascii.eqb c "D" then POk (RSet (CsNot CsDigit))
  else if Ascii.eqb c "S" then POk (RSet (CsNot CsSpace))
  else if Ascii.eqb c "W" then POk (RSet (CsNot CsWord))
  else if is_punct c then POk (RSet (CsLit c))
  else Unsupported.

(** A postfix operator applied to the atom before it; a second operator
    in a row is outside the fragment. *)
Definition parsePostfix (r : regex) (s : list ascii)
    : parsed (regex * list ascii) :=
  match s with
  | op :: s' =>
      if is_op op then
        match s' with
        | op2 :: _ => if is_op op2 then Unsupported else
            POk (if byte_in op [42]%N then RStar r
                 else if byte_in op [43]%N then RPlus r else RQuest r, s')
        | [] =>
            POk (if byte_in op [42]%N then RStar r
                 else if byte_in op [43]%N then RPlus r else RQuest r, s')
        end
      else POk (r, s)
  | [] => POk (r, s)
  end.

(** Recursive descent; [fuel] bounds the depth and is never used up on
    the inputs [Compile] gives it. *)
Fixpoint parseAlt (fuel : nat) (s : list ascii) {struct fuel}
    : parsed (regex * list ascii) :=
  match fuel with
  | O => Unsupported
  | S fuel' =>
      match parseCat fuel' s with
      | POk (r1, c :: s') =>
          if byte_in c [124]%N then
            match parseAlt fuel' s' with
            | POk (r2, s'') => POk (RAlt r1 r2, s'')
            | SyntaxError => SyntaxError
            | Unsupported => Unsupported
            end
          else POk (r1, c :: s')
      | other => other
      end
  end
with parseCat (fuel : nat) (s : list ascii) {struct fuel}
    : parsed (regex * list ascii) :=
  match fuel with
  | O => Unsupported
  | S fuel' =>
      match s with
      | [] => POk (REmpty, s)
      | c :: _ =>
          if byte_in c [41; 124]%N then POk (REmpty, s)
          else
            match parseRepeat fuel' s with
            | POk (r1, s') =>
                match parseCat fuel' s' with
                | POk (r2, s'') => POk (RCat r1 r2, s'')
                | other => other
                end
            | other => other
            end
      end
  end
with parseRepeat (fuel : nat) (s : list ascii) {struct fuel}
    : parsed (regex * list ascii) :=
  match fuel with
  | O => Unsupported
  | S fuel' =>
      match s with
      | [] => SyntaxError
      | c :: s' =>
          if is_op c then SyntaxError              (* nothing to repeat *)
          else if byte_in c [40]%N then           (* ( *)
            match s' with
            | q :: _ =>
                if byte_in q [63]%N then Unsupported   (* (? flags *)
                else
                  match parseAlt fuel' s' with
                  | POk (r, c2 :: s'') =>
                      if byte_in c2 [41]%N then parsePostfix (RGroup r) s''
                      else SyntaxError
                  | POk (_, []) => SyntaxError      (* missing ) *)
                  | other => other
                  end
            | [] => SyntaxError                     (* missing ) *)
            end
          else if byte_in c [92]%N then           (* backslash *)
            match s' with
            | e :: s'' =>
                match parseEscape e with
                | POk r => parsePostfix r s''
                | SyntaxError => SyntaxError
                | Unsupported => Unsupported
                end
            | [] => SyntaxError                     (* trailing backslash *)
            end
          else if byte_in c [46]%N then parsePostfix (RSet CsAnyNotNL) s'
          else if byte_in c [91; 93; 123; 125; 94; 36]%N then Unsupported
          else if (128 <=? N_of_ascii c)%N then Unsupported
          else parsePostfix (RSet (CsLit c)) s'
      end
  end.

Definition parse (pattern : string) : parsed regex :=
  let s := list_ascii_of_string pattern in
  match parseAlt (4 * length s + 4) s with
  | POk (r, []) => POk r
  | POk (_, _ :: _) => SyntaxError                (* unexpected ) *)
  | SyntaxError => SyntaxError
  | Unsupported => Unsupported
  end.

(** Backtracking match of [r] at the head of [s]; [k] continues on what
    is left.  Earlier alternatives and longer repetitions are tried
    first; a repetition that consumed nothing is not repeated. *)
Fixpoint matchK (r : regex) (s : list ascii)
    (k : list ascii -> option (list ascii)) {struct r}
    : option (list ascii) :=
  let star (r1 : regex) :=
    fix iter (n : nat) (s : list ascii) {struct n} : option (list ascii) :=
      match n with
      | O => k s
      | S n' =>
          match matchK r1 s
                  (fun s' => if (length s' <? length s)%nat
                             then iter n' s' else None) with
          | Some rest => Some rest
          | None => k s
          end
      end in
  match r with
  | REmpty => k s
  | RSet cs =>
      match s with
      | c :: s' => if cs_mem cs c then k s' else None
      | [] => None
      end
  | RCat r1 r2 => matchK r1 s (fun s' => matchK r2 s' k)
  | RAlt r1 r2 =>
      match matchK r1 s k with
      | Some rest => Some rest
      | None => matchK r2 s k
      end
  | RStar r1 => star r1 (length s) s
  | RPlus r1 => matchK r1 s (fun s' => star r1 (length s') s')
  | RQuest r1 =>
      match matchK r1 s k with
      | Some rest => Some rest
      | None => k s
      end
  | RGroup r1 => matchK r1 s k
  end.

(** The leftmost match in [s]. *)
Fixpoint findFrom (r : regex) (s : list ascii) : option (list ascii) :=
  match matchK r s Some with
  | Some rest => Some (take (length s - length rest)%nat s)
  | None =>
      match s with
      | [] => None
      | _ :: s' => findFrom r s'
      end
  end.

Definition FindString (r : regex) (s : string) : string :=
  match findFrom r (list_ascii_of_string s) with
  | Some m => string_of_list_ascii m
  | None => ""
  end.

(** [regexp.Compile]: [None] is a compile error.  It stands for the
    package only on patterns that [supported] holds of or that [parse]
    finds malformed; on a pattern outside the fragment [None] says
    nothing about the package. *)
Definition Compile (pattern : string) : option regex :=
  match parse pattern with
  | POk r => Some r
  | _ => None
  end.

Definition supported (pattern : string) : bool :=
  match parse pattern with
  | Unsupported => false
  | _ => true
  end.

End regexp.

(** ** Further views of an enumeration pass *)

Section EnumerateViews.
Context {Query Sorter : Type}.

(** What the callback is given and returns, the ordinal left out. *)
Definition delivery (c : Call) : RawMessage * Z * bool * option error :=
  (c_item c, c_total c, c_commit c, c_err c).

(** The deliveries of one page to a callback that returns nil: every
    hit in order, each with the page's total, the flag on the last. *)
Fixpoint pageFrom (idx nBatchItems : nat) (total : Z) (hits : list SearchHit)
    : list (RawMessage * Z * bool * option error) :=
  match hits with
  | [] => []
  | h :: rest =>
      (Source h, total, bool_decide (S idx = nBatchItems), None)
        :: pageFrom (S idx) nBatchItems total rest
  end.

(** The pages a pass gets to see: the readable answers up to the first
    fetch error, unreadable answer or select that finds the context
    done ([n] is the number of the next select). *)
Fixpoint servedUntil (ctx : nat -> option error) (n : nat)
    (responses : list (option SearchResult * option error))
    : list (list SearchHit * Z) :=
  match responses with
  | (res, None) :: rest =>
      match derefPage res with
      | Some (_, hits, total) =>
          (hits, total) ::
            match ctx n with
            | Some _ => []
            | None => servedUntil ctx (S n) rest
            end
      | None => []
      end
  | _ => []
  end.

Definition expectedDeliveries (pages : list (list SearchHit * Z))
    : list (RawMessage * Z * bool * option error) :=
  concat (map (fun p => pageFrom 0 (length p.1) p.2 p.1) pages).

(** The services the fetches of a trace were made with, the cursor ids
    of its readable pages, and its explicit releases. *)
Definition fetches (tr : list (@Event Query Sorter)) : list ScrollSvc :=
  omap (fun ev => match ev with EvDo svc _ _ => Some svc | _ => None end) tr.

Definition pageIds (tr : list (@Event Query Sorter)) : list string :=
  omap (fun ev =>
          match ev with
          | EvDo _ res None =>
              match derefPage res with
              | Some (r, _, _) => Some (ScrollId r)
              | None => None
              end
          | _ => None
          end) tr.

Definition releases (tr : list (@Event Query Sorter))
    : list (string * option error) :=
  omap (fun ev => match ev with
                  | EvClearScroll id err => Some (id, err)
                  | _ => None
                  end) tr.

Definition deferredClears (tr : list (@Event Query Sorter)) : nat :=
  length (omap (fun ev => match ev with
                          | EvDeferredClear => Some tt
                          | _ => None
                          end) tr).

(** A step of the loop, as opposed to a closing step. *)
Definition loopStep (ev : @Event Query Sorter) : bool :=
  match ev with
  | EvDo _ _ _ | EvItem _ | EvSelect _ => true
  | _ => false
  end.

(** A failed fetch is followed by quiet steps only. *)
Fixpoint fetchErrorEnds (tr : list (@Event Query Sorter)) : Prop :=
  match tr with
  | [] => True
  | ev :: tr' =>
      match ev with
      | EvDo _ _ (Some _) => Forall (fun ev' => quiet ev' = true) tr'
      | _ => True
      end /\ fetchErrorEnds tr'
  end.

(** The fetch of an answer that cannot be read ends the pass in a nil
    dereference, with only the deferred clear left to run. *)
Fixpoint unreadableEnds (r : Result) (tr : list (@Event Query Sorter)) : Prop :=
  match tr with
  | [] => True
  | EvDo _ res None :: tr' =>
      (derefPage res = None ->
       tr' = [EvDeferredClear] /\ r = Panicked NilDereference) /\
      unreadableEnds r tr'
  | _ :: tr' => unreadableEnds r tr'
  end.

Definition isPanic (r : Result) : bool :=
  match r with
  | Panicked _ => true
  | Returned _ => false
  end.

End EnumerateViews.

(** ** [EnsureIndexWithMapping] *)

(** [elastic.IndicesCreateResult], as far as the wrapper reads it. *)
Record IndicesCreateResult : Type := { Acknowledged : bool }.

(** The requests [EnsureIndexWithMapping] sends. *)
Inductive IndexAdmin : Type :=
| AskExists (index : string)
| AskCreate (index : string) (body : string).

Section EnsureIndex.
(** [c.client.IndexExists(indexName).Do(ctx)] and
    [c.client.CreateIndex(indexName).BodyString(mapping).Do(ctx)]; each
    is called at most once. *)
Variable indexExistsDo : string -> bool * option error.
Variable createIndexDo :
  string -> string -> option IndicesCreateResult * option error.

(** The result, and the requests sent. *)
Definition EnsureIndexWithMapping (indexName mapping : string)
    : Result * list IndexAdmin :=
  let '(exists_, err) := indexExistsDo indexName in
  match err with
  | Some e =>
      (Returned (errors_Wrap (Some e) "IndexExists"), [AskExists indexName])
  | None =>
      if negb exists_ then
        let sent := [AskExists indexName; AskCreate indexName mapping] in
        let '(createIndex, err) := createIndexDo indexName mapping in
        match err with
        | Some e => (Returned (errors_Wrap (Some e) "CreateIndex"), sent)
        | None =>
            (* createIndex.Acknowledged *)
            match createIndex with
            | None => (Panicked NilDereference, sent)
            | Some created =>
                if negb (Acknowledged created)
                then (Returned (Some ErrNotAcknowledged), sent)
                else (Returned None, sent)
            end
        end
      else (Returned None, [AskExists indexName])
  end.

End EnsureIndex.

(** ** [DoIndex], [DoIndexWithNameProvider], [DoCreate] *)

Section DoIndex.
(** The documents are opaque; [World] is the state of the engine. *)
Context {Doc World : Type}.

(** The state of the [elastic.IndexService] when [Do] is called.  An
    empty [ir_OpType] is the engine's default. *)
Record IndexRequest : Type := {
  ir_Index : string;
  ir_Id : string;
  ir_OpType : string;
  ir_Body : Doc
}.

(** [service...Do(ctx)]: the engine's answer to a request, in a state. *)
Variable indexDo : IndexRequest -> World -> option error * World.

(** [for idx, dat := range data { ... }] over the entries in the order
    [range] yields them (Go fixes no order for a map): [mk] is the
    request built for an entry, [message] the text the error is wrapped
    with.  The log pairs each request sent with its answer. *)
Fixpoint indexEach (mk : string -> Doc -> IndexRequest) (message : string)
    (entries : list (string * Doc)) (w : World)
    : option error * list (IndexRequest * option error) * World :=
  match entries with
  | [] => (None, [], w)
  | (idx, dat) :: rest =>
      let '(err, w') := indexDo (mk idx dat) w in
      match err with
      | Some e => (errors_Wrap (Some e) message, [(mk idx dat, Some e)], w')
      | None =>
          let '(r, log, w'') := indexEach mk message rest w' in
          (r, (mk idx dat, None) :: log, w'')
      end
  end.

(** [service := c.client.Index().Index(indexName)] and
    [service.Id(idx).BodyJson(&dat)]. *)
Definition DoIndex (indexName : string) (entries : list (string * Doc))
    (w : World) : option error * list (IndexRequest * option error) * World :=
  indexEach
    (fun idx dat => {| ir_Index := indexName; ir_Id := idx; ir_OpType := "";
                       ir_Body := dat |})
    "Do [create" entries w.

(** [service := c.client.Index()] and
    [service.Id(idx).Index(dat.IndexName()).BodyJson(&dat)]. *)
Definition DoIndexWithNameProvider (IndexName : Doc -> string)
    (entries : list (string * Doc)) (w : World)
    : option error * list (IndexRequest * option error) * World :=
  indexEach
    (fun idx dat => {| ir_Index := IndexName dat; ir_Id := idx;
                       ir_OpType := ""; ir_Body := dat |})
    "Do [create" entries w.

(** [service := c.client.Index().Index(indexName).OpType("create")]. *)
Definition DoCreate (indexName : string) (entries : list (string * Doc))
    (w : World) : option error * list (IndexRequest * option error) * World :=
  indexEach
    (fun idx dat => {| ir_Index := indexName; ir_Id := idx;
                       ir_OpType := "create"; ir_Body := dat |})
    "Do [index]" entries w.

(** What a run of one of the three loops amounts to: every entry sent
    and accepted, or the entries before the [k]-th accepted and the
    [k]-th refused. *)
Definition sentInOrder (mk : string -> Doc -> IndexRequest) (message : string)
    (entries : list (string * Doc))
    (out : option error * list (IndexRequest * option error) * World) : Prop :=
  match out.1.1 with
  | None => out.1.2 = map (fun x => (mk x.1 x.2, None)) entries
  | Some err =>
      exists (k : nat) (x : string * Doc) (e : error),
        entries !! k = Some x /\ err = Wrap e message /\
        out.1.2 = map (fun y => (mk y.1 y.2, None)) (take k entries) ++
                  [(mk x.1 x.2, Some e)]
  end.

End DoIndex.

(** ** [buildPutMappingBody] and [PutMapping] *)

(** The values the mapping body is made of: strings and nested
    [map[string]interface{}]. *)
#[warnings="-register-all"]
Inductive JValue : Type :=
| JString (s : string)
| JObject (fields : gmap string JValue).

Definition buildPutMappingBody (root key valueType : string)
    : gmap string JValue :=
  let body : gmap string JValue := ∅ in
  if negb (String.length root =? 0)%nat then
    <["properties" :=
        JObject {[ root :=
          JObject {[ "properties" :=
            JObject {[ key :=
              JObject {[ "type" := JString valueType ]} ]} ]} ]}]> body
  else
    <["properties" :=
        JObject {[ key :=
          JObject {[ "type" := JString valueType ]} ]}]> body.

(** The value at a path of keys. *)
Fixpoint jget (path : list string) (v : JValue) : option JValue :=
  match path with
  | [] => Some v
  | k :: rest =>
      match v with
      | JObject fields =>
          match fields !! k with
          | Some v' => jget rest v'
          | None => None
          end
      | JString _ => None
      end
  end.

(** The request [PutMapping] sends, and the error it passes on as it
    is. *)
Record PutMappingRequest : Type := {
  pm_Index : string;
  pm_Body : gmap string JValue
}.

Definition PutMapping (putMappingDo : PutMappingRequest -> option error)
    (index root key valueType : string) : option error :=
  let body := buildPutMappingBody root key valueType in
  putMappingDo {| pm_Index := index; pm_Body := body |}.

(** ** [NewClient] and the process-wide client of package [es] *)

(** The options [NewClient] passes to [elastic.NewClient]; the retrier
    and the decoder are fixed. *)
Record ClientOptions : Type := {
  opt_Sniff : bool;
  opt_URL : string;
  opt_HealthcheckInterval : Z;
  opt_BasicAuth : string * string
}.

(** [elastic.PingResult], as far as [Get] reads it. *)
Record PingResult : Type := { Version_Number : string }.

Inductive GetStep : Type :=
| StepNewClient (opts : ClientOptions)
| StepPing (url : string)
| StepDebug (code : Z) (version : string).

(** [c.endpoint], which [c.Ping()] pings. *)
Definition clientEndpoint (c : ElasticClientImpl) : string := endpoint c.

Section Get.
(** [elastic.NewClient(options...)]: its error. *)
Variable elastic_NewClient : ClientOptions -> option error.
(** [client.Ping().Do(ctx)] for the client's endpoint. *)
Variable pingDo : string -> option PingResult * Z * option error.

Definition NewClient (endpoint userName password : string)
    (healthCheckInterval : Z) (sniff : bool)
    : option ElasticClientImpl * option error :=
  let opts := {| opt_Sniff := sniff; opt_URL := endpoint;
                 opt_HealthcheckInterval := healthCheckInterval;
                 opt_BasicAuth := (userName, password) |} in
  match elastic_NewClient opts with
  | Some err => (None, errors_Wrap (Some err) "NewClient")
  | None =>
      (Some {| endpoint := endpoint; userName := userName;
               password := password |}, None)
  end.

(** What a call of [Get] comes to: the client and error it returns (or
    a panic), the package variable [clientInstance] afterwards, and the
    steps it took. *)
Inductive GetResult : Type :=
| GetReturned (client : option ElasticClientImpl) (err : option error)
| GetPanicked (p : panic).

Definition Get (clientInstance : option ElasticClientImpl)
    (endpoint userName password : string) (healthCheckInterval : Z)
    (sniff : bool)
    : GetResult * option ElasticClientImpl * list GetStep :=
  match clientInstance with
  | Some _ => (GetReturned clientInstance None, clientInstance, [])
  | None =>
      let opts := {| opt_Sniff := sniff; opt_URL := endpoint;
                     opt_HealthcheckInterval := healthCheckInterval;
                     opt_BasicAuth := (userName, password) |} in
      match NewClient endpoint userName password healthCheckInterval sniff with
      | (_, Some err) =>
          (GetReturned None (errors_Wrap (Some err) "NewClient"), None,
           [StepNewClient opts])
      | (None, None) =>
          (* client.Ping() on a nil client *)
          (GetPanicked NilDereference, None, [StepNewClient opts])
      | (Some client, None) =>
          let '(info, code, err) := pingDo (clientEndpoint client) in
          match err with
          | Some e =>
              (GetReturned None (errors_Wrap (Some e) "Ping"), None,
               [StepNewClient opts; StepPing (clientEndpoint client)])
          | None =>
              match info with
              | None =>
                  (GetPanicked NilDereference, None,
                   [StepNewClient opts; StepPing (clientEndpoint client)])
              | Some i =>
                  (GetReturned (Some client) None, Some client,
                   [StepNewClient opts; StepPing (clientEndpoint client);
                    StepDebug code (Version_Number i)])
              end
          end
      end
  end.

End Get.

(** ** What [GetIndices] computes *)

Section GetIndicesViews.
Context {Regexp : Type}.
Variable regexp_Compile : string -> option Regexp.
Variable FindString : Regexp -> string -> string.

(** The index names a compiled prefix finds in the catalog, in catalog
    order: the trimmed match of every line that has one. *)
Definition matchesOf (r : Regexp) (lines : list string) : list string :=
  omap (fun line =>
          let match_ := FindString r line in
          if negb (String.length match_ =? 0)%nat
          then Some (TrimSpace match_) else None) lines.

(** The prefixes the loop gets to, with their compiled patterns: those
    before the first one that does not compile. *)
Fixpoint compiling (prefixes : list string) : list (string * Regexp) :=
  match prefixes with
  | [] => []
  | prefix :: rest =>
      match regexp_Compile (indexPattern prefix) with
      | Some r => (prefix, r) :: compiling rest
      | None => []
      end
  end.

(** The list a key stands for: the matches of every occurrence of the
    key among the prefixes the loop gets to, one occurrence after the
    other. *)
Definition matchesFor (lines : list string) (prefixes : list string)
    (k : string) : list string :=
  concat (map (fun pr => if decide (pr.1 = k) then matchesOf pr.2 lines
                         else [])
            (compiling prefixes)).

(** A map entry for a list: none for the empty list. *)
Definition entryOf (l : list string) : option (list string) :=
  match l with
  | [] => None
  | _ :: _ => Some l
  end.

End GetIndicesViews.

(** ** Sample environments

    Concrete engines, callbacks and catalogs on which the definitions
    above are evaluated. *)

Module Samples.

Definition hit (s : string) : SearchHit := {| Source := s |}.

Definition page (total : Z) (id : string) (hs : list SearchHit)
    : option SearchResult * option error :=
  (Some {| Hits := Some {| sh_TotalHits :=
                             Some {| Value := total; Relation := "eq" |};
                           sh_Hits := hs |};
           ScrollId := id |}, None).

(** A search answering every request with the given result. *)
Definition searchAlways (r : option SearchResult * option error)
    : @SearchRequest unit -> option SearchResult * option error :=
  fun _ => r.

(** A decoder that stores the payload it is given. *)
Definition decodeCopy (data : RawMessage) (target : string)
    : option error * string :=
  (None, data).

(** No matching document: a total of 0 and no hits. *)
Definition noMatch : option SearchResult * option error := page 0 "" [].

(** A total of 3 with the first hit delivered. *)
Definition oneOfThree : option SearchResult * option error :=
  page 3 "" [hit "{a:1}"].

(** A total of 3 with an empty hits array. *)
Definition totalWithoutHits : option SearchResult * option error :=
  page 3 "" [].

(** A callback that counts its invocations and rejects one payload. *)
Definition cbRejects (bad : string) (item : RawMessage) (n total : Z)
    (commit : bool) (seen : nat) : option error * nat :=
  if String.eqb item bad then (Some (Opaque "rejected"), S seen)
  else (None, S seen).

(** A context that is never done, and one that is done from the [k]-th
    select on. *)
Definition liveCtx : nat -> option error := fun _ => None.

Definition cancelledFrom (k : nat) : nat -> option error :=
  fun n => if (k <=? n)%nat then Some context_Canceled else None.

(** Three documents in two pages, then end of stream. *)
Definition twoPages : list (option SearchResult * option error) :=
  [page 3 "cursor-1" [hit "a"; hit "b"]; page 3 "cursor-2" [hit "c"]].

Definition engine (ctx : nat -> option error) (release : option error)
    : Engine :=
  {| scrollDo := twoPages; ctxErr := ctx; clearScrollDo := fun _ => release |}.

(** The pass over [twoPages] with the given callback. *)
Definition enumerate (bad : string) (eng : Engine) : @Run unit unit nat :=
  EnumerateItems (cbRejects bad) eng "idx" tt None 0%nat.

(** The catalog as the [_cat/indices] endpoint prints it. *)
Definition nl : string := String (ascii_of_N 10) EmptyString.

Definition catalog : string :=
  String.concat nl
    ["health status index   uuid    pri rep docs.count store.size";
     "green  open   alpha-0 kZx1aQ    1   0         12     10.1kb";
     "green  open   alpha-1 b7Yt2w    1   0          7      6.3kb";
     "yellow open   gamma-0 Qm93fd    1   1          3      2.9kb";
     ""].

Definition es : ElasticClientImpl :=
  {| endpoint := "http://localhost:9200"; userName := "elastic";
     password := "secret" |}.

(** A transport that serves the catalog, and one that cannot connect. *)
Definition serveCatalog (req : Request) : Response + error :=
  inl {| Body := catalog |}.

Definition refuseConnection (req : Request) : Response + error :=
  inr (Opaque "dial tcp 127.0.0.1:9200: connect: connection refused").

Definition newRequestOk (method url : string) : option error := None.

(** [GetIndices] with package [regexp] as modelled above. *)
Definition getIndices (transport : Request -> Response + error)
    (prefixes : list string)
    : option (gmap string (list string)) * option error :=
  GetIndices regexp.Compile regexp.FindString newRequestOk transport es
    prefixes.

End Samples.

(** ** More sample environments *)

Module MoreSamples.

(** A callback that counts its invocations and accepts every item. *)
Definition cbAccept (item : RawMessage) (n total : Z) (commit : bool)
    (seen : nat) : option error * nat :=
  (None, S seen).

(** A page followed by an answer that has a hit but no total, as the
    engine sends it when the total is not tracked. *)
Definition noTotalSecond : Engine :=
  {| scrollDo := [Samples.page 3 "cursor-1" [Samples.hit "a"];
                  (Some {| Hits := Some {| sh_TotalHits := None;
                                           sh_Hits := [Samples.hit "b"] |};
                           ScrollId := "cursor-2" |}, None)];
     ctxErr := Samples.liveCtx; clearScrollDo := fun _ => None |}.

(** Three pages, the second of which comes without a cursor id. *)
Definition emptyIdSecond : Engine :=
  {| scrollDo := [Samples.page 3 "cursor-1" [Samples.hit "a"];
                  Samples.page 3 "" [Samples.hit "b"];
                  Samples.page 3 "cursor-3" [Samples.hit "c"]];
     ctxErr := Samples.liveCtx; clearScrollDo := fun _ => None |}.

(** An engine whose first fetch times out. *)
Definition timeoutFirst : Engine :=
  {| scrollDo := [(None, Some (Opaque "context deadline exceeded"))];
     ctxErr := Samples.liveCtx; clearScrollDo := fun _ => None |}.

Definition run (eng : Engine) : @Run unit unit nat :=
  EnumerateItems cbAccept eng "idx" tt None 0%nat.

(** An index engine that refuses the document with id "2" and accepts
    every other one; its state counts the requests. *)
Definition refuseTwo (r : @IndexRequest string) : option error :=
  if String.eqb (ir_Id r) "2" then Some (Opaque "version conflict") else None.

Definition indexEngine (r : @IndexRequest string) (n : nat)
    : option error * nat :=
  (refuseTwo r, n).

Definition threeDocs : list (string * string) :=
  [("1", "{a}"); ("2", "{b}"); ("3", "{c}")].

Definition threeDocsOtherOrder : list (string * string) :=
  [("2", "{b}"); ("1", "{a}"); ("3", "{c}")].

(** A cluster that answers, and one that cannot be pinged. *)
Definition newClientOk (opts : ClientOptions) : option error := None.

Definition pingOk (url : string) : option PingResult * Z * option error :=
  (Some {| Version_Number := "7.17.0" |}, 200, None).

Definition pingDown (url : string) : option PingResult * Z * option error :=
  (None, 0, Some (Opaque "no Elasticsearch node available")).

(** A no-break space, U+00A0, in UTF-8. *)
Definition nbsp : string :=
  String (ascii_of_N 194) (String (ascii_of_N 160) EmptyString).

End MoreSamples.

(** * Properties *)

(** ** Point lookups *)

Section UnmarshalFacts.
Context {Query Target : Type}.
Variable searchDo : @SearchRequest Query -> option SearchResult * option error.
Variable json_Unmarshal : RawMessage -> Target -> option error * Target.

(** A result that reports no hit ends the lookup before the decoder. *)
Lemma unmarshalFirst_empty rq target res :
  searchDo rq = (res, None) ->
  SearchResult_TotalHits res = 0 ->
  unmarshalFirst searchDo json_Unmarshal rq target =
    {| lk_result := Returned (Some ErrEmptyResult);
       lk_target := target; lk_decoded := [] |}.
Proof.
  intros Hdo Hzero. unfold unmarshalFirst. rewrite Hdo, Hzero. reflexivity.
Qed.

(** A nonzero total means the result and its hits section are there. *)
Lemma TotalHits_nonzero_inv res :
  SearchResult_TotalHits res <> 0 ->
  exists r sh th, res = Some r /\ Hits r = Some sh /\
                  sh_TotalHits sh = Some th /\ Value th <> 0.
Proof.
  unfold SearchResult_TotalHits. intros Hne.
  destruct res as [r|]; [|congruence].
  destruct (Hits r) as [sh|] eqn:Hh; [|congruence].
  destruct (sh_TotalHits sh) as [th|] eqn:Ht; [|congruence].
  exists r, sh, th. auto.
Qed.

(** Past the total-hits guard the first hit is read whatever the length
    of the hits array. *)
Lemma unmarshalFirst_nonzero rq target res :
  searchDo rq = (res, None) ->
  SearchResult_TotalHits res <> 0 ->
  exists r sh,
    res = Some r /\ Hits r = Some sh /\
    match sh_Hits sh with
    | [] =>
        unmarshalFirst searchDo json_Unmarshal rq target =
          {| lk_result := Panicked (IndexOutOfRange 0 0);
             lk_target := target; lk_decoded := [] |}
    | hit :: _ =>
        unmarshalFirst searchDo json_Unmarshal rq target =
          {| lk_result :=
               Returned (errors_Wrap (json_Unmarshal (Source hit) target).1
                           "Unmarshal");
             lk_target := (json_Unmarshal (Source hit) target).2;
             lk_decoded := [Source hit] |}
    end.
Proof.
  intros Hdo Hne.
  destruct (TotalHits_nonzero_inv res Hne) as (r & sh & th & -> & Hh & Ht & Hv).
  exists r, sh. split; [reflexivity|]. split; [exact Hh|].
  unfold unmarshalFirst. rewrite Hdo.
  assert (Hz : (SearchResult_TotalHits (Some r) =? 0) = false).
  { apply Z.eqb_neq. exact Hne. }
  rewrite Hz, Hh.
  destruct (sh_Hits sh) as [|hit rest]; [reflexivity|].
  destruct (json_Unmarshal (Source hit) target) as [uerr target']. reflexivity.
Qed.

(** C6. When the search result reports zero matching documents,
    [UnmarshalOne] and [UnmarshalMostRecent] return [ErrEmptyResult];
    nothing is handed to the decoder and the target is left as it was. *)
Theorem lookups_zero_hits_empty_result indexName query timestampField target res :
  SearchResult_TotalHits res = 0 ->
  (searchDo (requestOne indexName query) = (res, None) ->
   UnmarshalOne searchDo json_Unmarshal indexName query target =
     {| lk_result := Returned (Some ErrEmptyResult);
        lk_target := target; lk_decoded := [] |})
  /\
  (searchDo (requestMostRecent indexName query timestampField) = (res, None) ->
   UnmarshalMostRecent searchDo json_Unmarshal indexName query timestampField
       target =
     {| lk_result := Returned (Some ErrEmptyResult);
        lk_target := target; lk_decoded := [] |}).
Proof.
  intros Hzero. split; intros Hdo.
  - unfold UnmarshalOne. apply (unmarshalFirst_empty _ _ res); assumption.
  - unfold UnmarshalMostRecent. apply (unmarshalFirst_empty _ _ res); assumption.
Qed.

(** C10. With a nonzero reported total the first element of the hits
    array is read without looking at the array's length: in bounds when
    a hit is present (its source goes to the decoder), out of bounds, a
    panic and no [ErrEmptyResponse], when the array is empty.  The
    nonzero total itself makes the result and its hits section non-nil. *)
Theorem lookups_first_hit_guarded_by_total indexName query timestampField
    target res :
  SearchResult_TotalHits res <> 0 ->
  exists r sh,
    res = Some r /\ Hits r = Some sh /\
    (searchDo (requestOne indexName query) = (res, None) ->
     firstHitOutcome json_Unmarshal (sh_Hits sh) target
       (UnmarshalOne searchDo json_Unmarshal indexName query target)) /\
    (searchDo (requestMostRecent indexName query timestampField) = (res, None) ->
     firstHitOutcome json_Unmarshal (sh_Hits sh) target
       (UnmarshalMostRecent searchDo json_Unmarshal indexName query
          timestampField target)).
Proof.
  intros Hne.
  destruct (TotalHits_nonzero_inv res Hne) as (r & sh & th & -> & Hh & _).
  exists r, sh. split; [reflexivity|]. split; [exact Hh|].
  split; intros Hdo.
  - destruct (unmarshalFirst_nonzero _ target _ Hdo Hne)
      as (r' & sh' & Hr & Hh' & Hout).
    injection Hr as <-. rewrite Hh in Hh'. injection Hh' as <-.
    unfold firstHitOutcome, UnmarshalOne.
    destruct (sh_Hits sh); exact Hout.
  - destruct (unmarshalFirst_nonzero _ target _ Hdo Hne)
      as (r' & sh' & Hr & Hh' & Hout).
    injection Hr as <-. rewrite Hh in Hh'. injection Hh' as <-.
    unfold firstHitOutcome, UnmarshalMostRecent.
    destruct (sh_Hits sh); exact Hout.
Qed.

End UnmarshalFacts.

(** ** Cursor enumeration *)

Section EnumerateFacts.
Context {Query Sorter CbState : Type}.
Variable onItem :
  RawMessage -> Z -> Z -> bool -> CbState -> option error * CbState.

Abbreviation Event := (@Event Query Sorter).
Abbreviation Locals := (@Locals Query Sorter CbState).

(** *** The inner loop *)

Lemma deliver_nil idx nB nT (st : Locals) :
  deliver onItem [] idx nB nT st = ([], st).
Proof. reflexivity. Qed.

Lemma deliver_cons hit rest idx nB nT (st : Locals) :
  deliver onItem (hit :: rest) idx nB nT st =
    let n := wrap64 (nCurrentItem st + 1) in
    let commit := Z.of_nat idx =? Z.of_nat nB - 1 in
    let r := onItem (Source hit) n nT commit (cbState st) in
    let ev := EvItem {| c_item := Source hit; c_ordinal := n; c_total := nT;
                        c_commit := commit; c_err := r.1 |} in
    match r.1 with
    | Some e =>
        ([ev],
         {| errs := errs st ++ [Wrap e "onItem"]; svc := svc st;
            nCurrentItem := n; scrollID := scrollID st; cbState := r.2 |})
    | None =>
        (ev :: (deliver onItem rest (S idx) nB nT (afterCall st n r.2)).1,
         (deliver onItem rest (S idx) nB nT (afterCall st n r.2)).2)
    end.
Proof.
  simpl. destruct (onItem _ _ _ _ _) as [[e|] cb]; simpl; [reflexivity|].
  unfold afterCall. destruct (deliver _ _ _ _ _ _); reflexivity.
Qed.

(** Every step of the inner loop is an invocation. *)
Lemma deliver_items hits : forall idx nB nT (st : Locals),
  (deliver onItem hits idx nB nT st).1 =
    map EvItem (calls (deliver onItem hits idx nB nT st).1).
Proof.
  induction hits as [|hit rest IH]; intros idx nB nT st; [reflexivity|].
  rewrite deliver_cons. cbv zeta.
  destruct (onItem _ _ _ _ _).1; simpl; [reflexivity|].
  f_equal. apply IH.
Qed.

(** The inner loop touches neither the service nor the cursor id. *)
Lemma deliver_frame hits : forall idx nB nT (st : Locals),
  svc (deliver onItem hits idx nB nT st).2 = svc st /\
  scrollID (deliver onItem hits idx nB nT st).2 = scrollID st.
Proof.
  induction hits as [|hit rest IH]; intros idx nB nT st; [auto|].
  rewrite deliver_cons. cbv zeta.
  destruct (onItem _ _ _ _ _).1; simpl; [auto|].
  apply (IH (S idx) nB nT (afterCall st _ _)).
Qed.

(** The aggregate grows by the failures of the invocations made. *)
Lemma deliver_errs hits : forall idx nB nT (st : Locals),
  errs (deliver onItem hits idx nB nT st).2 =
    errs st ++ failures (deliver onItem hits idx nB nT st).1.
Proof.
  induction hits as [|hit rest IH]; intros idx nB nT st.
  - simpl. by rewrite app_nil_r.
  - rewrite deliver_cons. cbv zeta.
    destruct (onItem _ _ _ _ _).1 as [e|] eqn:He.
    + unfold failures. cbn [omap list_omap failure c_err fst snd errs].
      reflexivity.
    + unfold failures. cbn [omap list_omap failure c_err fst snd errs errors_Wrap].
      apply (IH (S idx) nB nT (afterCall st _ _)).
Qed.

Lemma bump_S n z : bump (S n) z = wrap64 (bump n z + 1).
Proof. revert z. induction n as [|n IH]; intros z; [reflexivity|]. apply IH. Qed.

Lemma bump_add a b z : bump (a + b) z = bump b (bump a z).
Proof. revert z. induction a as [|a IH]; intros z; [reflexivity|]. apply IH. Qed.

(** The counter is incremented once per invocation and each invocation
    gets the incremented value. *)
Lemma deliver_ordinals hits : forall idx nB nT (st : Locals),
  let r := deliver onItem hits idx nB nT st in
  map c_ordinal (calls r.1) =
    map (fun k => bump k (nCurrentItem st)) (seq 1 (length (calls r.1))) /\
  nCurrentItem r.2 = bump (length (calls r.1)) (nCurrentItem st).
Proof.
  induction hits as [|hit rest IH]; intros idx nB nT st; [split; reflexivity|].
  cbv zeta. rewrite deliver_cons. cbv zeta.
  destruct (onItem _ _ _ _ _).1 as [e|]; simpl; [split; reflexivity|].
  destruct (IH (S idx) nB nT
              (afterCall st (wrap64 (nCurrentItem st + 1))
                 (onItem (Source hit) (wrap64 (nCurrentItem st + 1)) nT
                    (Z.of_nat idx =? Z.of_nat nB - 1) (cbState st)).2))
    as [Ho Hn].
  cbv zeta in Ho, Hn. simpl in Ho, Hn. split.
  - f_equal. rewrite Ho, <- (seq_shift _ 1), map_map. reflexivity.
  - exact Hn.
Qed.

(** The invocations of one run of the inner loop take the hits in order;
    the flag compares the hit's index with the last index; a failed
    invocation is the last one, and stopping early means a failure. *)
Lemma deliver_page hits : forall idx nB nT (st : Locals),
  let cs := calls (deliver onItem hits idx nB nT st).1 in
  (length cs <= length hits)%nat /\
  map c_item cs = map Source (take (length cs) hits) /\
  (forall (j : nat) (c : Call), cs !! j = Some c ->
     c_total c = nT /\
     c_commit c = (Z.of_nat (idx + j) =? Z.of_nat nB - 1) /\
     (c_err c <> None -> S j = length cs)) /\
  ((length cs < length hits)%nat ->
     exists c, last cs = Some c /\ c_err c <> None).
Proof.
  induction hits as [|hit rest IH]; intros idx nB nT st.
  - cbv zeta. simpl. repeat split; try lia; intros; try discriminate.
    all: exfalso; simpl in *; lia.
  - cbv zeta. rewrite deliver_cons. cbv zeta.
    destruct (onItem _ _ _ _ _).1 as [e|] eqn:He.
    + cbn [fst calls omap list_omap length take map c_item].
      split; [simpl; lia|]. split; [reflexivity|]. split.
      * intros [|j] c Hc; [|discriminate]. injection Hc as <-.
        cbn [c_total c_commit c_err]. rewrite Nat.add_0_r. auto.
      * intros _. eexists. split; [reflexivity|]. simpl. congruence.
    + cbn [fst].
      destruct (IH (S idx) nB nT
                  (afterCall st (wrap64 (nCurrentItem st + 1))
                     (onItem (Source hit) (wrap64 (nCurrentItem st + 1)) nT
                        (Z.of_nat idx =? Z.of_nat nB - 1) (cbState st)).2))
        as (Hlen & Hitems & Hflags & Hshort).
      cbv zeta in Hlen, Hitems, Hflags, Hshort.
      set (cs' := calls (deliver onItem rest (S idx) nB nT _).1) in *.
      change (calls (EvItem ?c :: ?tr)) with (c :: calls tr).
      fold cs'. cbn [length take map c_item].
      split; [simpl; lia|]. split; [by rewrite Hitems|]. split.
      * intros [|j] c Hc.
        -- injection Hc as <-. cbn [c_total c_commit c_err].
           rewrite Nat.add_0_r. split; [reflexivity|]. split; [reflexivity|].
           congruence.
        -- destruct (Hflags j c Hc) as (Ht & Hc' & Hlast).
           split; [exact Ht|]. split.
           ++ rewrite Hc'. f_equal. lia.
           ++ intros Hf. f_equal. apply Hlast. exact Hf.
      * intros Hlt.
        destruct Hshort as (c & Hc & Hf); [simpl in Hlt; lia|].
        exists c. split; [|exact Hf].
        destruct cs' as [|c0 cs0]; [discriminate|].
        rewrite last_cons_cons. exact Hc.
Qed.

(** *** The outer loop, case by case *)

Lemma enter_frame (st : Locals) :
  errs (enter st) = errs st /\ nCurrentItem (enter st) = nCurrentItem st /\
  scrollID (enter st) = scrollID st /\ cbState (enter st) = cbState st.
Proof. unfold enter. destruct (String.eqb _ _); auto. Qed.

Lemma stored_frame (st : Locals) res :
  errs (stored st res) = errs st /\
  nCurrentItem (stored st res) = nCurrentItem st /\
  scrollID (stored st res) = scrollID st /\
  cbState (stored st res) = cbState st.
Proof. destruct res; simpl; auto. Qed.

(** Case analysis and induction for [scroll]: the loop is not entered;
    the answers are used up; the fetch fails; the page cannot be read;
    the select after the page sees the context done; the loop goes on. *)
Lemma scroll_cases (ctx : nat -> option error)
    (P : list (option SearchResult * option error) -> nat -> Locals ->
         list Event * Exit * Locals -> Prop) :
  (forall responses n st, errs st <> [] ->
     P responses n st ([], ExitLoop, st)) ->
  (forall n st, errs st = [] ->
     P [] n st
       ([EvDo (svc (enter st)) None (Some io_EOF)], ExitLoop, enter st)) ->
  (forall res err rest n st, errs st = [] ->
     P ((res, Some err) :: rest) n st
       ([EvDo (svc (enter st)) res (Some err)], ExitLoop,
        if is_EOF err then stored (enter st) res
        else withErr (stored (enter st) res) (Wrap err "Do"))) ->
  (forall res rest n st, errs st = [] -> derefPage res = None ->
     P ((res, None) :: rest) n st
       ([EvDo (svc (enter st)) res None], ExitPanic NilDereference,
        stored (enter st) res)) ->
  (forall res rest n st r hits nT e,
     errs st = [] -> derefPage res = Some (r, hits, nT) -> ctx n = Some e ->
     let d := deliver onItem hits 0 (length hits) nT
                (withScrollID (enter st) (ScrollId r)) in
     P ((res, None) :: rest) n st
       (EvDo (svc (enter st)) res None :: d.1 ++ [EvSelect (Some e)],
        ExitReturn (Some e), d.2)) ->
  (forall res rest n st r hits nT,
     errs st = [] -> derefPage res = Some (r, hits, nT) -> ctx n = None ->
     let d := deliver onItem hits 0 (length hits) nT
                (withScrollID (enter st) (ScrollId r)) in
     let s := scroll onItem ctx rest (S n) d.2 in
     P rest (S n) d.2 s ->
     P ((res, None) :: rest) n st
       (EvDo (svc (enter st)) res None :: d.1 ++ EvSelect None :: s.1.1,
        s.1.2, s.2)) ->
  forall responses n st, P responses n st (scroll onItem ctx responses n st).
Proof.
  intros Hstop Heof Herr Hpanic Hcancel Hnext.
  induction responses as [|[res err] rest IH]; intros n st.
  - destruct (errs st) as [|e0 es] eqn:He.
    + specialize (Heof n st He). simpl. rewrite He. exact Heof.
    + simpl. rewrite He. simpl. apply Hstop. congruence.
  - destruct (errs st) as [|e0 es] eqn:He.
    2:{ simpl. rewrite He. simpl. apply Hstop. congruence. }
    simpl. rewrite He. simpl. fold (enter st).
    destruct err as [err|].
    + specialize (Herr res err rest n st He).
      destruct (is_EOF err); exact Herr.
    + destruct (derefPage res) as [[[r hits] nT]|] eqn:Hp.
      2:{ apply Hpanic; assumption. }
      fold (withScrollID (enter st) (ScrollId r)).
      destruct (ctx n) as [e|] eqn:Hc.
      * specialize (Hcancel res rest n st r hits nT e He Hp Hc).
        cbv zeta in Hcancel.
        destruct (deliver onItem hits 0 (length hits) nT _) as [evs st2].
        exact Hcancel.
      * specialize (Hnext res rest n st r hits nT He Hp Hc).
        cbv zeta in Hnext.
        destruct (deliver onItem hits 0 (length hits) nT _) as [evs st2].
        cbn [fst snd] in Hnext. specialize (Hnext (IH (S n) st2)).
        destruct (scroll onItem ctx rest (S n) st2) as [[evs' ex] st3].
        exact Hnext.
Qed.

(** *** Views of traces put together *)

Lemma calls_app (tr1 tr2 : list Event) :
  calls (tr1 ++ tr2) = calls tr1 ++ calls tr2.
Proof. apply omap_app. Qed.

Lemma calls_items (cs : list Call) : calls (map (@EvItem Query Sorter) cs) = cs.
Proof. induction cs as [|c cs IH]; [reflexivity|]. simpl. by rewrite IH. Qed.

Lemma failures_app (tr1 tr2 : list Event) :
  failures (tr1 ++ tr2) = failures tr1 ++ failures tr2.
Proof. apply omap_app. Qed.

Lemma selects_app (tr1 tr2 : list Event) :
  selects (tr1 ++ tr2) = selects tr1 ++ selects tr2.
Proof. apply omap_app. Qed.

Lemma selects_items (cs : list Call) :
  selects (map (@EvItem Query Sorter) cs) = [].
Proof. induction cs as [|c cs IH]; [reflexivity|]. exact IH. Qed.

Lemma nPages_app (tr1 tr2 : list Event) :
  nPages (tr1 ++ tr2) = (nPages tr1 + nPages tr2)%nat.
Proof. unfold nPages. by rewrite List.filter_app, length_app. Qed.

Lemma nPages_items (cs : list Call) :
  nPages (map (@EvItem Query Sorter) cs) = 0%nat.
Proof. induction cs as [|c cs IH]; [reflexivity|]. exact IH. Qed.

Lemma cancelled_app (tr1 tr2 : list Event) :
  cancelled (tr1 ++ tr2) = cancelled tr1 || cancelled tr2.
Proof. apply existsb_app. Qed.

Lemma cancelled_items (cs : list Call) :
  cancelled (map (@EvItem Query Sorter) cs) = false.
Proof. induction cs as [|c cs IH]; [reflexivity|]. exact IH. Qed.

Lemma itemsPrefix_items (cs : list Call) (tr : list Event) :
  itemsPrefix tr = [] -> itemsPrefix (map EvItem cs ++ tr) = cs.
Proof.
  intros Htr. induction cs as [|c cs IH]; [exact Htr|]. simpl. by rewrite IH.
Qed.

Lemma pages_items (cs : list Call) (tr : list Event) :
  pages (map EvItem cs ++ tr) = pages tr.
Proof. induction cs as [|c cs IH]; [reflexivity|]. exact IH. Qed.

Lemma quiet_stops (tr : list Event) :
  Forall (fun ev => quiet ev = true) tr -> stopsAfterFailure tr.
Proof.
  induction 1 as [|ev tr Hq Hall IH]; [exact I|]. split; [|exact IH]. auto.
Qed.

Lemma stops_app_nofail (tr1 tr2 : list Event) :
  failures tr1 = [] -> stopsAfterFailure tr2 -> stopsAfterFailure (tr1 ++ tr2).
Proof.
  intros Hnone H2. induction tr1 as [|ev tr1 IH]; [exact H2|].
  unfold failures in Hnone. simpl in Hnone.
  destruct (failure ev) as [e|] eqn:Hf; [discriminate|].
  split; [congruence|]. apply IH. exact Hnone.
Qed.

Lemma cancelEnds_app_live res (tr1 tr2 : list Event) :
  cancelled tr1 = false -> cancelEnds res tr2 -> cancelEnds res (tr1 ++ tr2).
Proof.
  intros Hlive H2. induction tr1 as [|ev tr1 IH]; [exact H2|].
  simpl in Hlive. apply orb_false_elim in Hlive as [Hev Hlive].
  destruct ev as [| |[e|]| |]; try discriminate; simpl; auto.
Qed.

Lemma cancelEnds_live res (tr : list Event) :
  cancelled tr = false -> cancelEnds res tr.
Proof.
  intros Hlive. rewrite <- (app_nil_r tr).
  apply cancelEnds_app_live; [exact Hlive|exact I].
Qed.

(** *** The outer loop *)

(** Once the aggregate is not empty the loop is over. *)
Lemma scroll_stop ctx responses n (st : Locals) :
  errs st <> [] -> scroll onItem ctx responses n st = ([], ExitLoop, st).
Proof.
  intros Hne. destruct (errs st) as [|e es] eqn:He; [congruence|].
  destruct responses as [|[res err] rest]; simpl; rewrite He; reflexivity.
Qed.

(** The aggregate at the end of the loop: what it held plus the failures
    of the steps taken. *)
Lemma scroll_errs ctx : forall responses n (st : Locals),
  errs (scroll onItem ctx responses n st).2 =
    errs st ++ failures (scroll onItem ctx responses n st).1.1.
Proof.
  apply (scroll_cases ctx (fun _ _ st out => errs out.2 = errs st ++ failures out.1.1)).
  - intros _ _ st _. simpl. by rewrite app_nil_r.
  - intros _ st _. simpl. destruct (enter_frame st) as (-> & _).
    by rewrite app_nil_r.
  - intros res err _ _ st _. cbn [fst snd].
    destruct (enter_frame st) as (He & _).
    destruct (stored_frame (enter st) res) as (Hs & _).
    unfold failures. cbn [omap list_omap failure].
    destruct (is_EOF err); simpl; rewrite Hs, He;
      [by rewrite app_nil_r|reflexivity].
  - intros res _ _ st _ _. cbn [fst snd].
    destruct (stored_frame (enter st) res) as (-> & _).
    destruct (enter_frame st) as (-> & _).
    simpl. by rewrite app_nil_r.
  - intros res _ _ st r hits nT e _ _ _ d. cbn [fst snd].
    pose proof (deliver_errs hits 0%nat (length hits) nT
                  (withScrollID (enter st) (ScrollId r))) as Hd.
    fold d in Hd. rewrite Hd. cbn [errs withScrollID].
    destruct (enter_frame st) as (-> & _).
    change (EvDo ?a ?b ?c :: ?tr) with ([EvDo a b c] ++ tr).
    rewrite !failures_app. simpl. by rewrite app_nil_r.
  - intros res rest n st r hits nT _ _ _ d s IH. cbn [fst snd].
    pose proof (deliver_errs hits 0%nat (length hits) nT
                  (withScrollID (enter st) (ScrollId r))) as Hd.
    fold d in Hd. rewrite IH, Hd. cbn [errs withScrollID].
    destruct (enter_frame st) as (-> & _).
    change (EvDo ?a ?b ?c :: ?tr) with ([EvDo a b c] ++ tr).
    change (?x ++ EvSelect None :: ?tr) with (x ++ [EvSelect None] ++ tr).
    rewrite !failures_app. simpl. by rewrite <- app_assoc.
Qed.

Lemma seq_from (a m : nat) : seq (1 + a) m = map (Nat.add a) (seq 1 m).
Proof.
  change (map (Nat.add a) (seq 1 m)) with (Nat.add a <$> seq 1 m).
  rewrite fmap_add_seq. f_equal. lia.
Qed.

(** The counter over the whole loop. *)
Lemma scroll_ordinals ctx : forall responses n (st : Locals),
  let out := scroll onItem ctx responses n st in
  map c_ordinal (calls out.1.1) =
    map (fun k => bump k (nCurrentItem st)) (seq 1 (length (calls out.1.1))) /\
  nCurrentItem out.2 = bump (length (calls out.1.1)) (nCurrentItem st).
Proof.
  apply (scroll_cases ctx (fun _ _ st out =>
    map c_ordinal (calls out.1.1) =
      map (fun k => bump k (nCurrentItem st)) (seq 1 (length (calls out.1.1))) /\
    nCurrentItem out.2 = bump (length (calls out.1.1)) (nCurrentItem st))).
  - intros _ _ st _. split; reflexivity.
  - intros _ st _. simpl. destruct (enter_frame st) as (_ & -> & _). auto.
  - intros res err _ _ st _. cbn [fst snd].
    destruct (enter_frame st) as (_ & Hn & _).
    destruct (stored_frame (enter st) res) as (_ & Hs & _).
    destruct (is_EOF err); simpl; rewrite Hs; auto.
  - intros res _ _ st _ _. cbn [fst snd].
    destruct (stored_frame (enter st) res) as (_ & -> & _).
    destruct (enter_frame st) as (_ & -> & _). simpl. auto.
  - intros res _ _ st r hits nT e _ _ _ d. cbn [fst snd].
    destruct (deliver_ordinals hits 0%nat (length hits) nT
                (withScrollID (enter st) (ScrollId r))) as [Ho Hn].
    fold d in Ho, Hn. cbn [nCurrentItem withScrollID] in Ho, Hn.
    destruct (enter_frame st) as (_ & Hst & _). rewrite Hst in Ho, Hn.
    change (EvDo ?a ?b ?c :: ?tr) with ([EvDo a b c] ++ tr).
    rewrite !calls_app. simpl. rewrite app_nil_r. auto.
  - intros res rest n st r hits nT _ _ _ d s [IHo IHn]. cbn [fst snd].
    destruct (deliver_ordinals hits 0%nat (length hits) nT
                (withScrollID (enter st) (ScrollId r))) as [Ho Hn].
    fold d in Ho, Hn. cbn [nCurrentItem withScrollID] in Ho, Hn.
    destruct (enter_frame st) as (_ & Hst & _). rewrite Hst in Ho, Hn.
    change (EvDo ?a ?b ?c :: ?tr) with ([EvDo a b c] ++ tr).
    change (?x ++ EvSelect None :: ?tr) with (x ++ [EvSelect None] ++ tr).
    rewrite !calls_app. simpl.
    rewrite length_app, map_app, seq_app, map_app. split.
    + rewrite Ho, IHo, Hn. f_equal.
      rewrite (seq_from (length (calls d.1))), map_map. apply map_ext. intros k.
      symmetry. apply bump_add.
    + rewrite IHn, Hn. symmetry. apply bump_add.
Qed.

Lemma commit_flag (j m : nat) :
  (Z.of_nat j =? Z.of_nat m - 1) = bool_decide (S j = m).
Proof.
  case_bool_decide as H.
  - apply Z.eqb_eq. lia.
  - apply Z.eqb_neq. lia.
Qed.

(** A whole page handed to the inner loop is delivered as [pageDelivery]
    says. *)
Lemma deliver_pageDelivery hits nT (st : Locals) :
  pageDelivery hits (calls (deliver onItem hits 0 (length hits) nT st).1).
Proof.
  destruct (deliver_page hits 0%nat (length hits) nT st)
    as (Hlen & Hitems & Hflags & Hshort).
  cbv zeta in Hlen, Hitems, Hflags, Hshort.
  split; [exact Hlen|]. split; [exact Hitems|]. split; [|exact Hshort].
  intros j c Hc. destruct (Hflags j c Hc) as (_ & Hcommit & Hlast).
  split; [|exact Hlast]. rewrite Hcommit. apply commit_flag.
Qed.

(** Every page of the loop's trace is delivered as [pageDelivery] says,
    whatever quiet steps follow the loop. *)
Lemma scroll_pages ctx (tail : list Event) :
  itemsPrefix tail = [] -> pages tail = [] ->
  forall responses n (st : Locals),
    Forall (fun p => pageDelivery (hitsOf p.1) p.2)
      (pages ((scroll onItem ctx responses n st).1.1 ++ tail)).
Proof.
  intros Hpre Hpag.
  apply (scroll_cases ctx (fun _ _ _ out =>
    Forall (fun p => pageDelivery (hitsOf p.1) p.2) (pages (out.1.1 ++ tail)))).
  - intros responses n st Hne. simpl. rewrite Hpag. constructor.
  - intros n st He. simpl. rewrite Hpag. constructor.
  - intros res err rest n st He. simpl. rewrite Hpag. constructor.
  - intros res rest n st He Hnone. simpl. rewrite Hpag, Hpre.
    constructor; [|constructor].
    unfold hitsOf. simpl. rewrite Hnone.
    repeat split; simpl; intros; try discriminate; try lia.
  - intros res rest n st r hits nT e He Hp Hc d. cbn [fst snd].
    pose proof (deliver_items hits 0%nat (length hits) nT
                  (withScrollID (enter st) (ScrollId r))) as Hi.
    fold d in Hi. rewrite Hi. cbn [app pages]. rewrite <- app_assoc.
    rewrite itemsPrefix_items by reflexivity.
    rewrite pages_items. simpl. rewrite Hpag.
    constructor; [|constructor].
    unfold hitsOf. simpl. rewrite Hp. apply deliver_pageDelivery.
  - intros res rest n st r hits nT _ Hp _ d s IH. cbn [fst snd].
    pose proof (deliver_items hits 0%nat (length hits) nT
                  (withScrollID (enter st) (ScrollId r))) as Hi.
    fold d in Hi. rewrite Hi. cbn [app pages]. rewrite <- app_assoc.
    rewrite itemsPrefix_items by reflexivity.
    rewrite pages_items. simpl.
    constructor; [|exact IH].
    unfold hitsOf. simpl. rewrite Hp. apply deliver_pageDelivery.
Qed.

(** The inner loop stops at its first failure. *)
Lemma deliver_stops (tail : list Event) :
  Forall (fun ev => quiet ev = true) tail ->
  forall hits idx nB nT (st : Locals),
    stopsAfterFailure ((deliver onItem hits idx nB nT st).1 ++ tail).
Proof.
  intros Hq. induction hits as [|hit rest IH]; intros idx nB nT st.
  - simpl. by apply quiet_stops.
  - rewrite deliver_cons. cbv zeta.
    destruct (onItem _ _ _ _ _).1 as [e|] eqn:He; cbn [fst app].
    + split; [auto|]. by apply quiet_stops.
    + split; [|apply IH]. simpl. congruence.
Qed.

(** The loop stops at its first failure, and so does what follows it as
    long as that is quiet. *)
Lemma scroll_stops ctx (tail : list Event) :
  Forall (fun ev => quiet ev = true) tail ->
  forall responses n (st : Locals),
    stopsAfterFailure ((scroll onItem ctx responses n st).1.1 ++ tail).
Proof.
  intros Hq.
  apply (scroll_cases ctx (fun _ _ _ out => stopsAfterFailure (out.1.1 ++ tail))).
  - intros responses n st Hne. by apply quiet_stops.
  - intros n st He. simpl. split; [auto|]. by apply quiet_stops.
  - intros res err rest n st He. simpl. split; [auto|]. by apply quiet_stops.
  - intros res rest n st He Hp. simpl. split; [auto|]. by apply quiet_stops.
  - intros res rest n st r hits nT e He Hp Hc d. cbn [fst snd app].
    split; [simpl; congruence|]. rewrite <- app_assoc.
    apply deliver_stops. constructor; [reflexivity|exact Hq].
  - intros res rest n st r hits nT _ _ _ d s IH. cbn [fst snd app].
    split; [simpl; congruence|]. rewrite <- app_assoc. cbn [app].
    destruct (failures d.1) as [|f fs] eqn:Hf.
    + apply stops_app_nofail; [exact Hf|].
      split; [simpl; congruence|exact IH].
    + assert (Hs : s = ([], ExitLoop, d.2)).
      { apply scroll_stop.
        pose proof (deliver_errs hits 0%nat (length hits) nT
                      (withScrollID (enter st) (ScrollId r))) as Hd.
        fold d in Hd. rewrite Hd, Hf.
        intros Habs. apply app_eq_nil in Habs as [_ Habs]. discriminate. }
      rewrite Hs. cbn [fst snd app].
      apply deliver_stops. constructor; [reflexivity|exact Hq].
Qed.

(** How the loop was left, read off its trace: only a return has seen
    the context done, at its very last step; a panic needs an answer
    that cannot be read. *)
Lemma scroll_exit ctx : forall responses n (st : Locals),
  let out := scroll onItem ctx responses n st in
  match out.1.2 with
  | ExitLoop => cancelled out.1.1 = false
  | ExitReturn r =>
      exists e evs0, r = Some e /\ out.1.1 = evs0 ++ [EvSelect (Some e)] /\
                     cancelled evs0 = false
  | ExitPanic p =>
      p = NilDereference /\ cancelled out.1.1 = false /\
      Exists (fun resp => pageOk resp = false) responses
  end.
Proof.
  apply (scroll_cases ctx (fun responses _ _ out =>
    match out.1.2 with
    | ExitLoop => cancelled out.1.1 = false
    | ExitReturn r =>
        exists e evs0, r = Some e /\ out.1.1 = evs0 ++ [EvSelect (Some e)] /\
                       cancelled evs0 = false
    | ExitPanic p =>
        p = NilDereference /\ cancelled out.1.1 = false /\
        Exists (fun resp => pageOk resp = false) responses
    end)).
  - intros responses n st Hne. reflexivity.
  - intros n st He. reflexivity.
  - intros res err rest n st He. reflexivity.
  - intros res rest n st He Hp. simpl. split; [reflexivity|].
    split; [reflexivity|]. apply Exists_cons_hd. simpl. by rewrite Hp.
  - intros res rest n st r hits nT e He Hp Hc d. cbn [fst snd].
    exists e, (EvDo (svc (enter st)) res None :: d.1).
    split; [reflexivity|]. split; [reflexivity|].
    pose proof (deliver_items hits 0%nat (length hits) nT
                  (withScrollID (enter st) (ScrollId r))) as Hi.
    fold d in Hi. rewrite Hi. simpl. apply cancelled_items.
  - intros res rest n st r hits nT He Hp Hc d s IH. cbn [fst snd].
    pose proof (deliver_items hits 0%nat (length hits) nT
                  (withScrollID (enter st) (ScrollId r))) as Hi.
    fold d in Hi.
    assert (Hpre : forall tr : list Event,
              cancelled (EvDo (svc (enter st)) res None :: d.1 ++
                         EvSelect None :: tr) = cancelled tr).
    { intros tr. rewrite Hi. cbn [cancelled existsb orb].
      fold (cancelled (map EvItem (calls d.1) ++ EvSelect None :: tr)).
      rewrite cancelled_app, cancelled_items. reflexivity. }
    destruct s.1.2 as [|ret|p].
    + by rewrite Hpre.
    + destruct IH as (e & evs0 & -> & Hs & Hlive).
      exists e, (EvDo (svc (enter st)) res None :: d.1 ++ EvSelect None :: evs0).
      split; [reflexivity|]. split; [|by rewrite Hpre].
      rewrite Hs. cbn [app]. rewrite <- app_assoc. reflexivity.
    + destruct IH as (-> & Hlive & Hex). split; [reflexivity|].
      split; [by rewrite Hpre|]. by apply Exists_cons_tl.
Qed.

(** One select per readable page, the [k]-th seeing the context as it is
    then. *)
Lemma scroll_selects ctx : forall responses n (st : Locals),
  selects (scroll onItem ctx responses n st).1.1 =
    map ctx (seq n (nPages (scroll onItem ctx responses n st).1.1)).
Proof.
  apply (scroll_cases ctx (fun _ n _ out =>
    selects out.1.1 = map ctx (seq n (nPages out.1.1)))).
  - intros responses n st Hne. reflexivity.
  - intros n st He. reflexivity.
  - intros res err rest n st He. reflexivity.
  - intros res rest n st He Hp. cbn [fst snd]. unfold nPages. simpl.
    by rewrite Hp.
  - intros res rest n st r hits nT e He Hp Hc d. cbn [fst snd].
    pose proof (deliver_items hits 0%nat (length hits) nT
                  (withScrollID (enter st) (ScrollId r))) as Hi.
    fold d in Hi. rewrite Hi.
    change (EvDo ?a ?b ?c :: ?tr) with ([EvDo a b c] ++ tr).
    rewrite !selects_app, !nPages_app, selects_items, nPages_items.
    unfold nPages. simpl. rewrite Hp. simpl. by rewrite Hc.
  - intros res rest n st r hits nT He Hp Hc d s IH. cbn [fst snd].
    pose proof (deliver_items hits 0%nat (length hits) nT
                  (withScrollID (enter st) (ScrollId r))) as Hi.
    fold d in Hi. rewrite Hi.
    change (EvDo ?a ?b ?c :: ?tr) with ([EvDo a b c] ++ tr).
    change (?x ++ EvSelect None :: ?tr) with (x ++ [EvSelect None] ++ tr).
    rewrite !selects_app, !nPages_app, selects_items, nPages_items.
    rewrite IH. unfold nPages at 1 2. simpl. rewrite Hp. simpl.
    by rewrite Hc.
Qed.

(** *** The whole pass *)

Lemma closing_quiet (tail : list Event) : closing tail -> Forall (fun ev => quiet ev = true) tail.
Proof.
  intros [->|(id & err & ->)]; repeat constructor.
Qed.

Lemma closing_calls (tail : list Event) : closing tail -> calls tail = [].
Proof. intros [->|(id & err & ->)]; reflexivity. Qed.

Lemma closing_live (tail : list Event) : closing tail -> cancelled tail = false.
Proof. intros [->|(id & err & ->)]; reflexivity. Qed.

Lemma closing_selects (tail : list Event) :
  closing tail -> selects tail = [] /\ nPages tail = 0%nat.
Proof. intros [->|(id & err & ->)]; split; reflexivity. Qed.

Lemma closing_pages (tail : list Event) :
  closing tail -> itemsPrefix tail = [] /\ pages tail = [].
Proof. intros [->|(id & err & ->)]; split; reflexivity. Qed.

(** A pass is its loop followed by the closing steps. *)
Lemma EnumerateItems_shape (eng : Engine) indexName (query : Query)
    (sorter : option Sorter) cb0 :
  let s := scroll onItem (ctxErr eng) (scrollDo eng) 0
             (initial indexName query sorter cb0) in
  let run := EnumerateItems onItem eng indexName query sorter cb0 in
  exists tail,
    trace run = s.1.1 ++ tail /\ closing tail /\
    errs (final run) = errs s.2 ++ failures tail /\
    nCurrentItem (final run) = nCurrentItem s.2 /\
    match s.1.2 with
    | ExitLoop => result run = Returned (ErrorOrNil (errs (final run)))
    | ExitReturn err => result run = Returned err /\ tail = [EvDeferredClear]
    | ExitPanic p => result run = Panicked p /\ tail = [EvDeferredClear]
    end.
Proof.
  intros s run. subst run. unfold EnumerateItems.
  fold (initial indexName query sorter cb0). fold s.
  destruct s as [[evs ex] st]. cbn [fst snd].
  destruct ex as [|err|p].
  - unfold ClearScroll. destruct (String.eqb (scrollID st) "").
    + exists [EvDeferredClear]. cbn. rewrite app_nil_r.
      repeat split; auto. by left.
    + exists [EvClearScroll (scrollID st) (clearScrollDo eng (scrollID st));
              EvDeferredClear].
      cbn [trace final errs nCurrentItem result app].
      split; [reflexivity|]. split; [right; eauto|].
      split; [|split; reflexivity].
      unfold failures. simpl.
      destruct (clearScrollDo eng (scrollID st)); simpl; [reflexivity|].
      by rewrite app_nil_r.
  - exists [EvDeferredClear]. cbn. rewrite app_nil_r.
    repeat split; auto. by left.
  - exists [EvDeferredClear]. cbn. rewrite app_nil_r.
    repeat split; auto. by left.
Qed.

(** The aggregate a pass ends with holds the failures of its steps, in
    the order they happened. *)
Lemma EnumerateItems_errs (eng : Engine) indexName (query : Query)
    (sorter : option Sorter) cb0 :
  let run := EnumerateItems onItem eng indexName query sorter cb0 in
  errs (final run) = failures (trace run).
Proof.
  intros run.
  destruct (EnumerateItems_shape eng indexName query sorter cb0)
    as (tail & Htr & _ & Herrs & _).
  cbv zeta in Htr, Herrs. fold run in Htr, Herrs.
  rewrite Herrs, Htr, failures_app, scroll_errs. reflexivity.
Qed.

(** Below the wrap-around the counter simply counts. *)
Lemma bump_small (k : nat) : forall z : Z,
  0 <= z -> z + Z.of_nat k < 2 ^ 63 -> bump k z = z + Z.of_nat k.
Proof.
  induction k as [|k IH]; intros z Hz Hlt; [simpl; lia|].
  simpl bump.
  assert (Hw : wrap64 (z + 1) = z + 1).
  { unfold wrap64. rewrite Z.mod_small; lia. }
  rewrite Hw, IH; lia.
Qed.

(** C2. The ordinal passed to the callback is 1 on the first invocation
    and grows by exactly 1 from each invocation to the next, across page
    boundaries; when the pass ends the counter equals the number of
    invocations made.  ([nCurrentItem] is an [int64]: stated for passes
    that deliver fewer than 2^63 items.) *)
Theorem EnumerateItems_ordinals (eng : Engine) indexName (query : Query)
    (sorter : option Sorter) cb0 :
  let run := EnumerateItems onItem eng indexName query sorter cb0 in
  let cs := calls (trace run) in
  Z.of_nat (length cs) < 2 ^ 63 ->
  map c_ordinal cs = map Z.of_nat (seq 1 (length cs)) /\
  nCurrentItem (final run) = Z.of_nat (length cs).
Proof.
  intros run cs Hlt.
  destruct (EnumerateItems_shape eng indexName query sorter cb0)
    as (tail & Htr & Hclose & _ & Hn & _).
  cbv zeta in Htr, Hn. fold run in Htr, Hn.
  destruct (scroll_ordinals (ctxErr eng) (scrollDo eng) 0%nat
              (initial indexName query sorter cb0)) as [Ho Hfin].
  cbv zeta in Ho, Hfin.
  assert (Hcs : cs = calls (scroll onItem (ctxErr eng) (scrollDo eng) 0
                              (initial indexName query sorter cb0)).1.1).
  { unfold cs. rewrite Htr, calls_app, (closing_calls tail Hclose).
    by rewrite app_nil_r. }
  rewrite <- Hcs in Ho, Hfin. cbn [nCurrentItem initial] in Ho, Hfin.
  split.
  - rewrite Ho. apply map_ext_in. intros k Hk. apply in_seq in Hk.
    rewrite bump_small; lia.
  - rewrite Hn, Hfin. rewrite bump_small; lia.
Qed.

(** From the index-wise description to a count: the flag is set once on
    a page delivered to its end, and never on a page cut short or empty. *)
Lemma pageDelivery_commitCount hits cs :
  pageDelivery hits cs ->
  commitCount cs =
    if bool_decide (cs <> [] /\ length cs = length hits) then 1%nat else 0%nat.
Proof.
  intros (Hlen & _ & Hflags & _).
  assert (Hgen : forall (m off : nat) (l : list Call),
    (forall j c, l !! j = Some c -> c_commit c = bool_decide (S (off + j) = m)) ->
    (off + length l <= m)%nat ->
    commitCount l =
      if bool_decide (l <> [] /\ (off + length l)%nat = m)
      then 1%nat else 0%nat).
  { intros m off l. revert off.
    induction l as [|c l IH]; intros off Hf Hle.
    - rewrite bool_decide_false by (intros [H _]; congruence). reflexivity.
    - unfold commitCount. cbn [List.filter].
      pose proof (Hf 0%nat c eq_refl) as Hc. rewrite Nat.add_0_r in Hc.
      specialize (IH (S off)).
      assert (Hf' : forall j c', l !! j = Some c' ->
                c_commit c' = bool_decide (S (S off + j) = m)).
      { intros j c' Hj. rewrite (Hf (S j) c' Hj). apply bool_decide_ext. lia. }
      simpl in Hle. specialize (IH Hf' ltac:(lia)).
      unfold commitCount in IH. rewrite Hc.
      case_bool_decide as Hlast.
      + destruct l as [|c2 l]; [|simpl in Hle; lia].
        rewrite bool_decide_true; [reflexivity|].
        split; [discriminate|simpl; lia].
      + rewrite IH. destruct l as [|c2 l].
        * rewrite bool_decide_false by (intros [H _]; congruence).
          rewrite bool_decide_false; [reflexivity|]. simpl. intros [_ H]. lia.
        * rewrite (bool_decide_ext _
                     (c :: c2 :: l <> [] /\
                      (off + length (c :: c2 :: l))%nat = m)); [reflexivity|].
          split; intros [_ H]; (split; [discriminate|]); simpl in *; lia. }
  rewrite (Hgen (length hits) 0%nat cs).
  - reflexivity.
  - intros j c Hc. apply Hflags. exact Hc.
  - simpl. lia.
Qed.

(** C3, as the loop has it.  In every page the invocations take the hits
    in order from the first; the commit flag is true on the invocation
    for the page's final hit and false on every other one; the inner
    loop stops at a failed invocation.  So the flag is true exactly once
    in a page delivered to its end, and not at all in a page that a
    callback error cut short before its final hit (or that has no hits). *)
Theorem EnumerateItems_commit_flag (eng : Engine) indexName (query : Query)
    (sorter : option Sorter) cb0 :
  let run := EnumerateItems onItem eng indexName query sorter cb0 in
  Forall (fun p =>
            pageDelivery (hitsOf p.1) p.2 /\
            commitCount p.2 =
              if bool_decide (p.2 <> [] /\ length p.2 = length (hitsOf p.1))
              then 1%nat else 0%nat)
    (pages (trace run)).
Proof.
  intros run.
  destruct (EnumerateItems_shape eng indexName query sorter cb0)
    as (tail & Htr & Hclose & _).
  cbv zeta in Htr. fold run in Htr. rewrite Htr.
  destruct (closing_pages tail Hclose) as [Hpre Hpag].
  eapply Forall_impl; [apply scroll_pages; assumption|].
  intros p Hp. split; [exact Hp|]. by apply pageDelivery_commitCount.
Qed.

(** A trace that stops after failures has nothing but quiet steps after
    any failed step it contains. *)
Lemma stops_split (tr1 : list Event) ev tr2 :
  stopsAfterFailure (tr1 ++ ev :: tr2) -> failure ev <> None ->
  Forall (fun ev' => quiet ev' = true) tr2.
Proof.
  induction tr1 as [|ev1 tr1 IH]; simpl; intros [Hhd Htl] Hf; auto.
Qed.

(** C4. When the callback returns an error for an item, the error joins
    the aggregate wrapped as "onItem", and nothing after that invocation
    is a callback invocation or a fetch: the rest of the page is not
    delivered and no further page is requested. *)
Theorem EnumerateItems_stops_on_callback_error (eng : Engine) indexName
    (query : Query) (sorter : option Sorter) cb0 tr1 c e tr2 :
  let run := EnumerateItems onItem eng indexName query sorter cb0 in
  trace run = tr1 ++ EvItem c :: tr2 ->
  c_err c = Some e ->
  In (Wrap e "onItem") (errs (final run)) /\
  Forall (fun ev => quiet ev = true) tr2.
Proof.
  intros run Htrace Herr. split.
  - pose proof (EnumerateItems_errs eng indexName query sorter cb0) as Herrs.
    cbv zeta in Herrs. fold run in Herrs.
    rewrite Herrs, Htrace, failures_app. apply in_or_app. right.
    unfold failures. simpl. rewrite Herr. simpl. by left.
  - destruct (EnumerateItems_shape eng indexName query sorter cb0)
      as (tail & Htr & Hclose & _).
    cbv zeta in Htr. fold run in Htr.
    apply (stops_split tr1 (EvItem c)).
    + rewrite <- Htrace, Htr. apply scroll_stops. by apply closing_quiet.
    + simpl. rewrite Herr. discriminate.
Qed.

Lemma cancelEnds_split res (tr1 : list Event) e tr2 :
  cancelEnds res (tr1 ++ EvSelect (Some e) :: tr2) ->
  tr2 = [EvDeferredClear] /\ res = Returned (Some e).
Proof.
  induction tr1 as [|ev tr1 IH]; simpl; [auto|].
  destruct ev as [| |[e'|]| |]; try exact IH.
  intros [Heq _]. destruct tr1 as [|ev1 tr1]; [discriminate|].
  injection Heq as _ Heq. destruct tr1; discriminate.
Qed.

Lemma EnumerateItems_cancelEnds (eng : Engine) indexName (query : Query)
    (sorter : option Sorter) cb0 :
  let run := EnumerateItems onItem eng indexName query sorter cb0 in
  cancelEnds (result run) (trace run).
Proof.
  intros run.
  destruct (EnumerateItems_shape eng indexName query sorter cb0)
    as (tail & Htr & Hclose & _ & _ & Hex).
  cbv zeta in Htr, Hex. fold run in Htr, Hex.
  pose proof (scroll_exit (ctxErr eng) (scrollDo eng) 0%nat
                (initial indexName query sorter cb0)) as Hexit.
  cbv zeta in Hexit. rewrite Htr.
  destruct (scroll onItem _ _ _ _).1.2 as [|ret|p].
  - apply cancelEnds_live. rewrite cancelled_app, Hexit.
    by apply closing_live.
  - destruct Hexit as (e & evs0 & -> & -> & Hlive).
    destruct Hex as [-> ->]. rewrite <- app_assoc.
    apply cancelEnds_app_live; [exact Hlive|]. simpl. auto.
  - destruct Hexit as (_ & Hlive & _).
    apply cancelEnds_live. rewrite cancelled_app, Hlive.
    by apply closing_live.
Qed.

Lemma afterItems_items (cs : list Call) (tr : list Event) :
  afterItems (map EvItem cs ++ tr) = afterItems tr.
Proof. induction cs as [|c cs IH]; [reflexivity|]. exact IH. Qed.

Lemma checked_items (cs : list Call) (tr : list Event) :
  checkedAtBoundary tr -> checkedAtBoundary (map EvItem cs ++ tr).
Proof. intros Htr. induction cs as [|c cs IH]; [exact Htr|]. exact IH. Qed.

Lemma closing_checked (tail : list Event) :
  closing tail -> itemsPrefix tail = [] /\ checkedAtBoundary tail.
Proof. intros [->|(id & err & ->)]; split; simpl; auto. Qed.

(** In the loop's trace the select comes between the delivery of a page
    and the next fetch. *)
Lemma scroll_checked ctx (tail : list Event) :
  itemsPrefix tail = [] -> checkedAtBoundary tail ->
  forall responses n (st : Locals),
    checkedAtBoundary ((scroll onItem ctx responses n st).1.1 ++ tail) /\
    itemsPrefix ((scroll onItem ctx responses n st).1.1 ++ tail) = [].
Proof.
  intros Hpre Hchk.
  apply (scroll_cases ctx (fun _ _ _ out =>
    checkedAtBoundary (out.1.1 ++ tail) /\ itemsPrefix (out.1.1 ++ tail) = [])).
  - intros responses n st Hne. simpl. auto.
  - intros n st He. simpl. auto.
  - intros res err rest n st He. simpl. auto.
  - intros res rest n st He Hnone. cbn [fst snd app checkedAtBoundary pageOk].
    rewrite Hnone.
    split; [split; [intros Habs; discriminate Habs|exact Hchk]|reflexivity].
  - intros res rest n st r hits nT e He Hp Hc d. cbn [fst snd].
    pose proof (deliver_items hits 0%nat (length hits) nT
                  (withScrollID (enter st) (ScrollId r))) as Hi.
    fold d in Hi. rewrite Hi. cbn [app]. rewrite <- app_assoc.
    split; [|reflexivity]. cbn [checkedAtBoundary]. split.
    + intros _. rewrite itemsPrefix_items by reflexivity.
      rewrite afterItems_items. split.
      * unfold hitsOf. rewrite Hp. apply deliver_pageDelivery.
      * exists (Some e), tail. split; [reflexivity|exact Hpre].
    + apply checked_items. exact Hchk.
  - intros res rest n st r hits nT He Hp Hc d s [IHc IHp]. cbn [fst snd].
    pose proof (deliver_items hits 0%nat (length hits) nT
                  (withScrollID (enter st) (ScrollId r))) as Hi.
    fold d in Hi. rewrite Hi. cbn [app]. rewrite <- app_assoc.
    split; [|reflexivity]. cbn [checkedAtBoundary]. split.
    + intros _. rewrite itemsPrefix_items by reflexivity.
      rewrite afterItems_items. split.
      * unfold hitsOf. rewrite Hp. apply deliver_pageDelivery.
      * exists None, (s.1.1 ++ tail). split; [reflexivity|exact IHp].
    + apply checked_items. exact IHc.
Qed.

(** C5. The select sits at the page boundary: after the fetch of each
    readable page comes the delivery of that page (to its end, or up to
    a failed invocation), then one select, and no invocation between
    that select and the next fetch.  The [k]-th select sees the context
    as it is then.  When a select finds the context done, the pass
    returns the context's own error, not an aggregate, and the only step
    left is the deferred clear: no further fetch, no further
    invocation. *)
Theorem EnumerateItems_cancellation (eng : Engine) indexName (query : Query)
    (sorter : option Sorter) cb0 :
  let run := EnumerateItems onItem eng indexName query sorter cb0 in
  checkedAtBoundary (trace run) /\
  selects (trace run) = map (ctxErr eng) (seq 0 (nPages (trace run))) /\
  forall tr1 e tr2,
    trace run = tr1 ++ EvSelect (Some e) :: tr2 ->
    result run = Returned (Some e) /\ tr2 = [EvDeferredClear].
Proof.
  intros run. split; [|split].
  - destruct (EnumerateItems_shape eng indexName query sorter cb0)
      as (tail & Htr & Hclose & _).
    cbv zeta in Htr. fold run in Htr.
    destruct (closing_checked tail Hclose) as [Hpre Hchk].
    rewrite Htr. by apply scroll_checked.
  - destruct (EnumerateItems_shape eng indexName query sorter cb0)
      as (tail & Htr & Hclose & _).
    cbv zeta in Htr. fold run in Htr.
    destruct (closing_selects tail Hclose) as [Hs Hp].
    rewrite Htr, selects_app, nPages_app, Hs, Hp, app_nil_r, Nat.add_0_r.
    apply scroll_selects.
  - intros tr1 e tr2 Htrace.
    pose proof (EnumerateItems_cancelEnds eng indexName query sorter cb0) as Hc.
    cbv zeta in Hc. fold run in Hc. rewrite Htrace in Hc.
    apply cancelEnds_split in Hc as [-> ->]. auto.
Qed.

(** With readable answers the loop does not panic. *)
Lemma scroll_no_panic ctx responses n (st : Locals) p :
  Forall (fun resp => pageOk resp = true) responses ->
  (scroll onItem ctx responses n st).1.2 <> ExitPanic p.
Proof.
  intros Hok Hex.
  pose proof (scroll_exit ctx responses n st) as Hexit. cbv zeta in Hexit.
  rewrite Hex in Hexit. destruct Hexit as (_ & _ & Hbad).
  apply Exists_exists in Hbad as (resp & Hin & Hresp).
  rewrite Forall_forall in Hok. rewrite (Hok resp Hin) in Hresp. discriminate.
Qed.

(** C1, as the function has it.  Unless a select sees the context done,
    a pass over readable answers returns the aggregate of its failures:
    every fetch error other than end of stream wrapped as "Do", every
    callback error wrapped as "onItem", then the error of the explicit
    release wrapped as "ClearScroll", in the order they happened; and it
    returns nil exactly when there was no failure. *)
Theorem EnumerateItems_aggregate (eng : Engine) indexName (query : Query)
    (sorter : option Sorter) cb0 :
  let run := EnumerateItems onItem eng indexName query sorter cb0 in
  Forall (fun resp => pageOk resp = true) (scrollDo eng) ->
  cancelled (trace run) = false ->
  result run = Returned (ErrorOrNil (failures (trace run))) /\
  (result run = Returned None <-> failures (trace run) = []).
Proof.
  intros run Hok Hlive.
  assert (Hres : result run = Returned (ErrorOrNil (failures (trace run)))).
  { pose proof (EnumerateItems_errs eng indexName query sorter cb0) as Herrs.
    cbv zeta in Herrs. fold run in Herrs.
    destruct (EnumerateItems_shape eng indexName query sorter cb0)
      as (tail & Htr & Hclose & _ & _ & Hex).
    cbv zeta in Htr, Hex. fold run in Htr, Hex.
    pose proof (scroll_exit (ctxErr eng) (scrollDo eng) 0%nat
                  (initial indexName query sorter cb0)) as Hexit.
    cbv zeta in Hexit.
    destruct (scroll onItem _ _ _ _).1.2 as [|ret|p] eqn:Hexeq.
    - by rewrite Hex, Herrs.
    - destruct Hexit as (e & evs0 & _ & Hevs & _).
      rewrite Htr, Hevs, !cancelled_app in Hlive. simpl in Hlive.
      rewrite orb_true_r in Hlive. discriminate.
    - exfalso. eapply scroll_no_panic; [exact Hok|exact Hexeq]. }
  split; [exact Hres|]. rewrite Hres.
  destruct (failures (trace run)); simpl; split; intros H; congruence.
Qed.

End EnumerateFacts.

(** *** The pass on sample engines *)

Example enumerate_two_pages :
  calls (trace (Samples.enumerate "none" (Samples.engine Samples.liveCtx None))) =
    [ {| c_item := "a"; c_ordinal := 1; c_total := 3; c_commit := false;
         c_err := None |};
      {| c_item := "b"; c_ordinal := 2; c_total := 3; c_commit := true;
         c_err := None |};
      {| c_item := "c"; c_ordinal := 3; c_total := 3; c_commit := true;
         c_err := None |} ] /\
  result (Samples.enumerate "none" (Samples.engine Samples.liveCtx None)) =
    Returned None.
Proof. split; reflexivity. Qed.

Lemma EnumerateItems_ordinals_witness :
  let run := Samples.enumerate "none" (Samples.engine Samples.liveCtx None) in
  map c_ordinal (calls (trace run)) = map Z.of_nat (seq 1 3) /\
  nCurrentItem (final run) = Z.of_nat 3.
Proof.
  exact (EnumerateItems_ordinals (Samples.cbRejects "none")
           (Samples.engine Samples.liveCtx None) "idx" tt None 0%nat
           eq_refl).
Defined.

(** C3, as stated, fails on a page that a callback error cuts short: the
    first page has two hits, the callback rejects the first, and the flag
    is never true in that page. *)
Lemma commit_flag_absent_on_cut_page :
  let run := Samples.enumerate "a" (Samples.engine Samples.liveCtx None) in
  exists res,
    pages (trace run) =
      [(res, [ {| c_item := "a"; c_ordinal := 1; c_total := 3;
                  c_commit := false; c_err := Some (Opaque "rejected") |} ])] /\
    length (hitsOf res) = 2%nat /\
    commitCount (calls (trace run)) = 0%nat.
Proof. eexists. repeat split. Qed.

Lemma EnumerateItems_stops_on_callback_error_witness :
  let run := Samples.enumerate "a" (Samples.engine Samples.liveCtx None) in
  In (Wrap (Opaque "rejected") "onItem") (errs (final run)) /\
  Forall (fun ev => quiet ev = true) (drop 2 (trace run)).
Proof.
  exact (EnumerateItems_stops_on_callback_error (Samples.cbRejects "a")
           (Samples.engine Samples.liveCtx None) "idx" tt None 0%nat
           (take 1 (trace (Samples.enumerate "a"
                             (Samples.engine Samples.liveCtx None))))
           {| c_item := "a"; c_ordinal := 1; c_total := 3; c_commit := false;
              c_err := Some (Opaque "rejected") |}
           (Opaque "rejected")
           (drop 2 (trace (Samples.enumerate "a"
                             (Samples.engine Samples.liveCtx None))))
           eq_refl eq_refl).
Defined.

Lemma EnumerateItems_cancellation_witness :
  let run := Samples.enumerate "none"
               (Samples.engine (Samples.cancelledFrom 0) None) in
  result run = Returned (Some context_Canceled) /\
  drop 4 (trace run) = [EvDeferredClear].
Proof.
  exact (proj2 (proj2 (EnumerateItems_cancellation (Samples.cbRejects "none")
                         (Samples.engine (Samples.cancelledFrom 0) None)
                         "idx" tt None 0%nat))
           (take 3 (trace (Samples.enumerate "none"
                             (Samples.engine (Samples.cancelledFrom 0) None))))
           context_Canceled
           (drop 4 (trace (Samples.enumerate "none"
                             (Samples.engine (Samples.cancelledFrom 0) None))))
           eq_refl).
Defined.

(** C1, as stated, fails when a select sees the context done: the pass
    returns the context's error although a callback error had joined the
    aggregate, and returns it, not nil, although the aggregate is empty. *)
Lemma cancellation_drops_the_aggregate :
  let run := Samples.enumerate "a"
               (Samples.engine (Samples.cancelledFrom 0) None) in
  let run' := Samples.enumerate "none"
                (Samples.engine (Samples.cancelledFrom 0) None) in
  (result run = Returned (Some context_Canceled) /\
   failures (trace run) = [Wrap (Opaque "rejected") "onItem"] /\
   errs (final run) = [Wrap (Opaque "rejected") "onItem"]) /\
  (result run' = Returned (Some context_Canceled) /\
   failures (trace run') = [] /\ errs (final run') = []).
Proof. repeat split. Qed.

Lemma EnumerateItems_aggregate_witness :
  let run := Samples.enumerate "b"
               (Samples.engine Samples.liveCtx (Some (Opaque "gone"))) in
  result run =
    Returned (ErrorOrNil [Wrap (Opaque "rejected") "onItem";
                          Wrap (Opaque "gone") "ClearScroll"]) /\
  (result run = Returned None <-> failures (trace run) = []).
Proof.
  exact (EnumerateItems_aggregate (Samples.cbRejects "b")
           (Samples.engine Samples.liveCtx (Some (Opaque "gone")))
           "idx" tt None 0%nat
           ltac:(repeat constructor) eq_refl).
Defined.

(** *** The lookups on sample answers *)

Lemma lookups_zero_hits_empty_result_witness :
  UnmarshalOne (Samples.searchAlways Samples.noMatch) Samples.decodeCopy
      "idx" tt "old" =
    {| lk_result := Returned (Some ErrEmptyResult);
       lk_target := "old"; lk_decoded := [] |} /\
  UnmarshalMostRecent (Samples.searchAlways Samples.noMatch) Samples.decodeCopy
      "idx" tt "timestamp" "old" =
    {| lk_result := Returned (Some ErrEmptyResult);
       lk_target := "old"; lk_decoded := [] |}.
Proof.
  destruct (lookups_zero_hits_empty_result
              (Samples.searchAlways Samples.noMatch) Samples.decodeCopy
              "idx" tt "timestamp" "old" (Samples.noMatch).1 eq_refl)
    as [H1 H2].
  split; [exact (H1 eq_refl)|exact (H2 eq_refl)].
Defined.

Lemma lookups_first_hit_guarded_by_total_witness :
  UnmarshalOne (Samples.searchAlways Samples.oneOfThree) Samples.decodeCopy
      "idx" tt "old" =
    {| lk_result := Returned None; lk_target := "{a:1}";
       lk_decoded := ["{a:1}"] |} /\
  UnmarshalMostRecent (Samples.searchAlways Samples.totalWithoutHits)
      Samples.decodeCopy "idx" tt "timestamp" "old" =
    {| lk_result := Panicked (IndexOutOfRange 0 0); lk_target := "old";
       lk_decoded := [] |}.
Proof.
  split.
  - destruct (lookups_first_hit_guarded_by_total
                (Samples.searchAlways Samples.oneOfThree) Samples.decodeCopy
                "idx" tt "timestamp" "old" (Samples.oneOfThree).1
                ltac:(discriminate))
      as (r & sh & Hr & Hh & H1 & _).
    injection Hr as <-. injection Hh as <-. exact (H1 eq_refl).
  - destruct (lookups_first_hit_guarded_by_total
                (Samples.searchAlways Samples.totalWithoutHits)
                Samples.decodeCopy
                "idx" tt "timestamp" "old" (Samples.totalWithoutHits).1
                ltac:(discriminate))
      as (r & sh & Hr & Hh & _ & H2).
    injection Hr as <-. injection Hh as <-. exact (H2 eq_refl).
Defined.

(** ** Index discovery *)

(** Package [regexp] and the scanner on the texts [GetIndices] meets. *)
Example find_alpha_row :
  (fun r => regexp.FindString r
     "green  open   alpha-10 kZx1aQ    1   0         12     10.1kb")
    <$> regexp.Compile (indexPattern "alpha") =
  Some " alpha-10 ".
Proof. reflexivity. Qed.

Example find_alpha_header :
  (fun r => regexp.FindString r
     "health status index   uuid    pri rep docs.count store.size")
    <$> regexp.Compile (indexPattern "alpha") =
  Some "".
Proof. reflexivity. Qed.

Example compile_open_paren :
  regexp.Compile (indexPattern "(") = None /\
  regexp.parse (indexPattern "(") = regexp.SyntaxError.
Proof. split; reflexivity. Qed.

Example trim_match : TrimSpace " alpha-10 " = "alpha-10".
Proof. reflexivity. Qed.

Example scan_catalog :
  scanLines Samples.catalog =
    ["health status index   uuid    pri rep docs.count store.size";
     "green  open   alpha-0 kZx1aQ    1   0         12     10.1kb";
     "green  open   alpha-1 b7Yt2w    1   0          7      6.3kb";
     "yellow open   gamma-0 Qm93fd    1   1          3      2.9kb"].
Proof. reflexivity. Qed.

Section GetIndicesFacts.
Context {Regexp : Type}.
Variable regexp_Compile : string -> option Regexp.
Variable FindString : Regexp -> string -> string.
Variable http_NewRequest : string -> string -> option error.
Variable client_Do : Request -> Response + error.

(** A failure of [http.NewRequest] is wrapped and returned. *)
Lemma GetIndices_request_failure c prefixes err :
  http_NewRequest "GET" (catalogURL c) = Some err ->
  GetIndices regexp_Compile FindString http_NewRequest client_Do c prefixes =
    (None, Some (Wrap err "NewRequest")).
Proof. intros Hreq. unfold GetIndices. by rewrite Hreq. Qed.

(** C7.  Not what the specification asks for: when [client.Do]
    fails, [GetIndices] returns the empty map and a nil error, whatever
    the prefixes, where the failure of [http.NewRequest] three lines
    above it is wrapped and returned. *)
Theorem GetIndices_swallows_transport_error c prefixes err :
  http_NewRequest "GET" (catalogURL c) = None ->
  client_Do (catalogRequest c) = inr err ->
  GetIndices regexp_Compile FindString http_NewRequest client_Do c prefixes =
    (Some ∅, None).
Proof.
  intros Hreq Hdo. unfold GetIndices.
  rewrite Hreq. cbv zeta. rewrite Hdo. reflexivity.
Qed.

(** A prefix that does not compile ends the loop over the prefixes:
    whatever comes after it in the list is never looked at. *)
Lemma matchPrefixes_compile_error lines before prefix after result :
  regexp_Compile (indexPattern prefix) = None ->
  matchPrefixes regexp_Compile FindString lines (before ++ prefix :: after)
    result =
  matchPrefixes regexp_Compile FindString lines before result.
Proof.
  intros Hbad. revert result.
  induction before as [|p before IH]; intros result; simpl.
  - by rewrite Hbad.
  - destruct (regexp_Compile (indexPattern p)); [apply IH|reflexivity].
Qed.

(** The matching for one prefix stores no empty list and makes no key
    without a match. *)
Lemma matchLines_keys r prefix (Q : string -> Prop) lines :
  (forall line, line ∈ lines -> FindString r line <> "" -> Q prefix) ->
  forall result : gmap string (list string),
    (forall k v, result !! k = Some v -> v <> [] /\ Q k) ->
    forall k v,
      matchLines FindString r prefix lines result !! k = Some v ->
      v <> [] /\ Q k.
Proof.
  induction lines as [|line lines IH]; intros Hq result Hres k v; simpl.
  - apply Hres.
  - apply IH.
    { intros l Hl. apply Hq. by apply list_elem_of_further. }
    intros k' v'.
    destruct (FindString r line) as [|ch rest] eqn:Hfind; simpl; [apply Hres|].
    destruct (decide (prefix = k')) as [<-|Hne].
    + rewrite lookup_insert_eq. intros [= <-]. split.
      * intros Habs. apply app_eq_nil in Habs as [_ Habs]. discriminate.
      * apply (Hq line); [apply list_elem_of_here|]. by rewrite Hfind.
    + rewrite lookup_insert_ne by exact Hne. apply Hres.
Qed.

Lemma matchPrefixes_keys lines prefixes :
  forall result : gmap string (list string),
    (forall k v, result !! k = Some v -> v <> [] /\ hasMatch regexp_Compile FindString lines k) ->
    forall k v,
      matchPrefixes regexp_Compile FindString lines prefixes result !! k =
        Some v ->
      v <> [] /\ hasMatch regexp_Compile FindString lines k.
Proof.
  induction prefixes as [|p prefixes IH]; intros result Hres k v; simpl.
  - apply Hres.
  - destruct (regexp_Compile (indexPattern p)) as [r|] eqn:Hr; [|apply Hres].
    apply IH. apply matchLines_keys; [|exact Hres].
    intros line Hin Hfind. exists r, line. auto.
Qed.

(** A key of the returned map has at least one match in the catalog that
    was served: a prefix without matches is not a key, and no key maps
    to an empty list. *)
Lemma GetIndices_keys_have_matches c prefixes m err k v :
  GetIndices regexp_Compile FindString http_NewRequest client_Do c prefixes =
    (Some m, err) ->
  m !! k = Some v ->
  v <> [] /\
  exists resp, client_Do (catalogRequest c) = inl resp /\
               hasMatch regexp_Compile FindString (scanLines (Body resp)) k.
Proof.
  unfold GetIndices. destruct (http_NewRequest _ _); [discriminate|].
  destruct (client_Do _) as [resp|e]; intros [= <- _].
  - intros Hk.
    destruct (matchPrefixes_keys (scanLines (Body resp)) prefixes ∅) with k v
      as [Hne Hm]; [|exact Hk|].
    + intros k' v'. by rewrite lookup_empty.
    + split; [exact Hne|]. exists resp. auto.
  - by rewrite lookup_empty.
Qed.

(** C8.  Not what the specification asks for: a prefix whose
    pattern does not compile ends the whole matching with a nil error,
    so the prefixes after it in the list are not matched at all; the
    result is the one for the prefixes before it. *)
Theorem GetIndices_drops_prefixes_after_malformed c before prefix after :
  regexp_Compile (indexPattern prefix) = None ->
  GetIndices regexp_Compile FindString http_NewRequest client_Do c
    (before ++ prefix :: after) =
  GetIndices regexp_Compile FindString http_NewRequest client_Do c before.
Proof.
  intros Hbad. unfold GetIndices.
  destruct (http_NewRequest _ _); [reflexivity|]. cbv zeta.
  destruct (client_Do _) as [resp|e]; [|reflexivity].
  by rewrite matchPrefixes_compile_error.
Qed.

End GetIndicesFacts.

Lemma GetIndices_swallows_transport_error_witness :
  Samples.getIndices Samples.refuseConnection ["alpha"; "beta"] =
    (Some ∅, None).
Proof.
  exact (GetIndices_swallows_transport_error regexp.Compile regexp.FindString
           Samples.newRequestOk Samples.refuseConnection Samples.es
           ["alpha"; "beta"] _ eq_refl eq_refl).
Defined.

(** With an unbalanced parenthesis as first prefix, alpha gets no entry
    although the catalog lists alpha-0 and alpha-1. *)
Lemma GetIndices_drops_prefixes_after_malformed_witness :
  Samples.getIndices Samples.serveCatalog ["("; "alpha"] =
    Samples.getIndices Samples.serveCatalog [].
Proof.
  exact (GetIndices_drops_prefixes_after_malformed regexp.Compile
           regexp.FindString Samples.newRequestOk Samples.serveCatalog
           Samples.es [] "(" ["alpha"] eq_refl).
Defined.

Example malformed_prefix_first_and_last :
  regexp.parse (indexPattern "(") = regexp.SyntaxError /\
  regexp.supported (indexPattern "alpha") = true /\
  Samples.getIndices Samples.serveCatalog ["("; "alpha"] = (Some ∅, None) /\
  Samples.getIndices Samples.serveCatalog ["alpha"; "("] =
    (Some {[ "alpha" := ["alpha-0"; "alpha-1"] ]}, None).
Proof. repeat split; vm_compute; reflexivity. Qed.

(** C9.  For the prefixes alpha and beta and a catalog that lists
    alpha-0, alpha-1 and gamma-0 in this order, the mapping is
    alpha to [alpha-0; alpha-1], in catalog order, and beta is no key.
    And for every pattern engine, transport, client and prefix list: a
    key of the returned map maps to a list that is not empty, and the
    pattern of that prefix has a match in a line of the catalog served,
    so a prefix without matches is never a key. *)
Theorem GetIndices_alpha_beta :
  (regexp.supported (indexPattern "alpha") = true /\
   regexp.supported (indexPattern "beta") = true /\
   Samples.getIndices Samples.serveCatalog ["alpha"; "beta"] =
     (Some {[ "alpha" := ["alpha-0"; "alpha-1"] ]}, None) /\
   forall m err,
     Samples.getIndices Samples.serveCatalog ["alpha"; "beta"] = (Some m, err) ->
     m !! "beta" = None) /\
  (forall (Regexp : Type) (compile : string -> option Regexp)
          (find : Regexp -> string -> string)
          (newRequest : string -> string -> option error)
          (transport : Request -> Response + error)
          (c : ElasticClientImpl) (prefixes : list string)
          (m : gmap string (list string)) (err : option error)
          (k : string) (v : list string),
     GetIndices compile find newRequest transport c prefixes = (Some m, err) ->
     m !! k = Some v ->
     v <> [] /\
     exists resp, transport (catalogRequest c) = inl resp /\
                  hasMatch compile find (scanLines (Body resp)) k).
Proof.
  split.
  - split; [vm_compute; reflexivity|]. split; [vm_compute; reflexivity|].
    assert (Heq : Samples.getIndices Samples.serveCatalog ["alpha"; "beta"] =
                    (Some {[ "alpha" := ["alpha-0"; "alpha-1"] ]}, None))
      by (vm_compute; reflexivity).
    split; [exact Heq|].
    intros m err. rewrite Heq. intros [= <- _].
    apply lookup_singleton_ne. discriminate.
  - intros Regexp compile find newRequest transport c prefixes m err k v.
    apply GetIndices_keys_have_matches.
Qed.

Lemma GetIndices_alpha_beta_witness :
  ({[ "alpha" := ["alpha-0"; "alpha-1"] ]} : gmap string (list string))
    !! "beta" = None /\
  ["alpha-0"; "alpha-1"] <> ([] : list string).
Proof.
  destruct GetIndices_alpha_beta as [(_ & _ & Heq & Hbeta) Hgen]. split.
  - exact (Hbeta _ _ Heq).
  - exact (proj1 (Hgen _ _ _ _ _ _ _ _ _ "alpha" _ Heq
                    (lookup_singleton_eq _ _))).
Defined.

(** * Further properties *)

(** ** The enumeration pass, beyond its stated properties *)

Section EnumerateMore.
Context {Query Sorter CbState : Type}.
Variable onItem :
  RawMessage -> Z -> Z -> bool -> CbState -> option error * CbState.

(** A callback that returns nil for every hit gets the whole page. *)
Lemma deliver_all hits :
  (forall item n total commit cb, (onItem item n total commit cb).1 = None) ->
  forall idx nB nT (st : @Locals Query Sorter CbState),
    map delivery (calls (deliver onItem hits idx nB nT st).1) =
      pageFrom idx nB nT hits /\
    errs (deliver onItem hits idx nB nT st).2 = errs st.
Proof.
  intros Hnil. induction hits as [|hit rest IH]; intros idx nB nT st.
  - split; reflexivity.
  - rewrite deliver_cons. cbv zeta. rewrite Hnil. cbn [fst snd].
    destruct (IH (S idx) nB nT
                (afterCall st (wrap64 (nCurrentItem st + 1))
                   (onItem (Source hit) (wrap64 (nCurrentItem st + 1)) nT
                      (Z.of_nat idx =? Z.of_nat nB - 1) (cbState st)).2))
      as [Hd He].
    split; [|exact He].
    change (calls (EvItem ?c :: ?tr)) with (c :: calls tr).
    cbn [map pageFrom]. rewrite Hd. f_equal.
    unfold delivery. cbn [c_item c_total c_commit c_err].
    by rewrite commit_flag.
Qed.

Lemma scroll_all ctx :
  (forall item n total commit cb, (onItem item n total commit cb).1 = None) ->
  forall responses n (st : @Locals Query Sorter CbState),
    errs st = [] ->
    map delivery (calls (scroll onItem ctx responses n st).1.1) =
      expectedDeliveries (servedUntil ctx n responses).
Proof.
  intros Hnil.
  apply (scroll_cases onItem ctx (fun responses n st out =>
    errs st = [] ->
    map delivery (calls out.1.1) =
      expectedDeliveries (servedUntil ctx n responses))).
  - intros responses n st Hne He. congruence.
  - intros n st _ _. reflexivity.
  - intros res err rest n st _ _. reflexivity.
  - intros res rest n st _ Hp _. simpl. by rewrite Hp.
  - intros res rest n st r hits nT e He Hp Hc d _. cbn [fst snd].
    destruct (deliver_all hits Hnil 0%nat (length hits) nT
                (withScrollID (enter st) (ScrollId r))) as [Hd _].
    fold d in Hd.
    change (EvDo ?a ?b ?c :: ?tr) with ([EvDo a b c] ++ tr).
    rewrite !calls_app. simpl. rewrite app_nil_r, Hd, Hp, Hc.
    unfold expectedDeliveries. simpl. by rewrite app_nil_r.
  - intros res rest n st r hits nT He Hp Hc d s IH _. cbn [fst snd].
    destruct (deliver_all hits Hnil 0%nat (length hits) nT
                (withScrollID (enter st) (ScrollId r))) as [Hd Hde].
    fold d in Hd, Hde. cbn [errs withScrollID] in Hde.
    destruct (enter_frame st) as (Hent & _). rewrite Hent, He in Hde.
    change (EvDo ?a ?b ?c :: ?tr) with ([EvDo a b c] ++ tr).
    change (?x ++ EvSelect None :: ?tr) with (x ++ [EvSelect None] ++ tr).
    rewrite !calls_app. simpl. rewrite map_app, Hd, (IH Hde), Hp, Hc.
    reflexivity.
Qed.

(** X1. With a callback that returns nil for every item, the callback
    is invoked exactly once for every hit of every page served, in the
    order the engine returned them, with the total of the hit's page and
    the commit flag on the last hit of each page; the pages served are
    the readable answers up to the first fetch error or the first select
    that finds the context done. *)
Theorem EnumerateItems_delivers_each_hit_once (eng : Engine) indexName
    (query : Query) (sorter : option Sorter) cb0 :
  (forall item n total commit cb, (onItem item n total commit cb).1 = None) ->
  map delivery
    (calls (trace (EnumerateItems onItem eng indexName query sorter cb0))) =
  expectedDeliveries (servedUntil (ctxErr eng) 0 (scrollDo eng)).
Proof.
  intros Hnil.
  destruct (EnumerateItems_shape onItem eng indexName query sorter cb0)
    as (tail & Htr & Hclose & _).
  cbv zeta in Htr. rewrite Htr, calls_app, (closing_calls tail Hclose).
  rewrite app_nil_r. by apply scroll_all.
Qed.

Lemma fetches_app (tr1 tr2 : list (@Event Query Sorter)) :
  fetches (tr1 ++ tr2) = fetches tr1 ++ fetches tr2.
Proof. apply omap_app. Qed.

Lemma pageIds_app (tr1 tr2 : list (@Event Query Sorter)) :
  pageIds (tr1 ++ tr2) = pageIds tr1 ++ pageIds tr2.
Proof. apply omap_app. Qed.

Lemma fetches_items (cs : list Call) :
  fetches (map (@EvItem Query Sorter) cs) = [] /\
  pageIds (map (@EvItem Query Sorter) cs) = [].
Proof. induction cs as [|c cs IH]; [split; reflexivity|]. exact IH. Qed.

Lemma closing_fetches (tail : list (@Event Query Sorter)) :
  closing tail -> fetches tail = [] /\ pageIds tail = [].
Proof. intros [->|(id & err & ->)]; split; reflexivity. Qed.

(** The fetches and page ids of one round of the loop. *)
Lemma round_fetches (sv : @ScrollSvc Query Sorter) res r hits nT
    (items rest : list (@Event Query Sorter)) d :
  derefPage res = Some (r, hits, nT) ->
  items = map EvItem (calls items) ->
  fetches (EvDo sv res None :: items ++ EvSelect d :: rest) =
    sv :: fetches rest /\
  pageIds (EvDo sv res None :: items ++ EvSelect d :: rest) =
    ScrollId r :: pageIds rest.
Proof.
  intros Hp Hi. rewrite Hi.
  change (EvDo ?a ?b ?c :: ?tr) with ([EvDo a b c] ++ tr).
  change (?x ++ EvSelect d :: ?tr) with (x ++ [EvSelect d] ++ tr).
  rewrite !fetches_app, !pageIds_app.
  destruct (fetches_items (calls items)) as [-> ->].
  simpl. by rewrite Hp.
Qed.

(** The service the next fetch is made with, after a page with cursor
    id [id]: it carries this id, and nothing else of it has changed. *)
Lemma enter_after_page (st : @Locals Query Sorter CbState) hits nT id :
  let d := deliver onItem hits 0 (length hits) nT
             (withScrollID (enter st) id) in
  svc_scrollId (svc (enter d.2)) = id /\
  svc_index (svc (enter d.2)) = svc_index (svc (enter st)) /\
  svc_query (svc (enter d.2)) = svc_query (svc (enter st)) /\
  svc_sorters (svc (enter d.2)) = svc_sorters (svc (enter st)).
Proof.
  intros d.
  destruct (deliver_frame onItem hits 0%nat (length hits) nT
              (withScrollID (enter st) id)) as [Hsvc Hid].
  fold d in Hsvc, Hid. cbn [svc scrollID withScrollID] in Hsvc, Hid.
  assert (Hd : svc (enter d.2) = svc_ScrollId (svc (enter st)) id).
  { unfold enter at 1. rewrite Hid.
    destruct (String.eqb id ""); [exact Hsvc|].
    cbn [svc]. rewrite Hsvc. reflexivity. }
  rewrite Hd. auto.
Qed.

(** The loop threads the cursor: each fetch carries the id of the page
    before it, and nothing else of the service changes. *)
Lemma scroll_thread ctx : forall responses n (st : @Locals Query Sorter CbState),
  let out := scroll onItem ctx responses n st in
  map svc_scrollId (fetches out.1.1) `prefix_of`
    svc_scrollId (svc (enter st)) :: pageIds out.1.1 /\
  Forall (fun sv => svc_index sv = svc_index (svc (enter st)) /\
                    svc_query sv = svc_query (svc (enter st)) /\
                    svc_sorters sv = svc_sorters (svc (enter st)))
    (fetches out.1.1).
Proof.
  apply (scroll_cases onItem ctx (fun _ _ st out =>
    map svc_scrollId (fetches out.1.1) `prefix_of`
      svc_scrollId (svc (enter st)) :: pageIds out.1.1 /\
    Forall (fun sv => svc_index sv = svc_index (svc (enter st)) /\
                      svc_query sv = svc_query (svc (enter st)) /\
                      svc_sorters sv = svc_sorters (svc (enter st)))
      (fetches out.1.1))).
  - intros responses n st Hne. split; [apply prefix_nil|constructor].
  - intros n st He. split; [reflexivity|]. repeat constructor.
  - intros res err rest n st He. split; [reflexivity|]. repeat constructor.
  - intros res rest n st He Hp. simpl. rewrite Hp. split; [reflexivity|].
    repeat constructor.
  - intros res rest n st r hits nT e He Hp Hc d. cbn [fst snd].
    destruct (round_fetches (svc (enter st)) res r hits nT d.1 []
                (Some e) Hp) as [Hf Hi].
    { apply deliver_items. }
    rewrite Hf, Hi. split; [|repeat constructor].
    simpl. apply prefix_cons, prefix_nil.
  - intros res rest n st r hits nT He Hp Hc d s [IHt IHs]. cbn [fst snd].
    destruct (round_fetches (svc (enter st)) res r hits nT d.1 s.1.1
                None Hp) as [Hf Hi].
    { apply deliver_items. }
    destruct (enter_after_page st hits nT (ScrollId r))
      as (Hid & Hx & Hq & Hs).
    fold d in Hid, Hx, Hq, Hs.
    rewrite Hf, Hi. split.
    + simpl. apply prefix_cons. rewrite <- Hid at 1. exact IHt.
    + constructor; [auto|].
      eapply Forall_impl; [exact IHs|]. simpl.
      intros sv (H1 & H2 & H3). rewrite H1, H2, H3. auto.
Qed.

(** X2. Every fetch of a pass is made with the index, the query and the
    sorter given to [EnumerateItems]; the first with an empty cursor id
    and each later one with the cursor id of the page fetched just
    before it, as [Do] left it in the service, be it empty or not. *)
Theorem EnumerateItems_threads_cursor (eng : Engine) indexName
    (query : Query) (sorter : option Sorter) cb0 :
  let run := EnumerateItems onItem eng indexName query sorter cb0 in
  map svc_scrollId (fetches (trace run)) `prefix_of`
    "" :: pageIds (trace run) /\
  Forall (fun sv => svc_index sv = indexName /\ svc_query sv = query /\
                    svc_sorters sv = option_list sorter)
    (fetches (trace run)).
Proof.
  intros run.
  destruct (EnumerateItems_shape onItem eng indexName query sorter cb0)
    as (tail & Htr & Hclose & _).
  cbv zeta in Htr. fold run in Htr.
  destruct (closing_fetches tail Hclose) as [Hf Hi].
  rewrite Htr, fetches_app, pageIds_app, Hf, Hi, !app_nil_r.
  destruct (scroll_thread (ctxErr eng) (scrollDo eng) 0%nat
              (initial indexName query sorter cb0)) as [Ht Hs].
  cbv zeta in Ht, Hs.
  change (enter (initial indexName query sorter cb0))
    with (initial indexName query sorter cb0) in Ht, Hs.
  split.
  - destruct sorter; exact Ht.
  - eapply Forall_impl; [exact Hs|]. simpl.
    intros sv (H1 & H2 & H3). rewrite H1, H2, H3.
    destruct sorter; auto.
Qed.

(** The loop itself makes fetches, invocations and selects only. *)
Lemma scroll_loopSteps ctx : forall responses n (st : @Locals Query Sorter CbState),
  Forall (fun ev => loopStep ev = true) (scroll onItem ctx responses n st).1.1.
Proof.
  apply (scroll_cases onItem ctx (fun _ _ _ out =>
    Forall (fun ev => loopStep ev = true) out.1.1)).
  - intros responses n st Hne. constructor.
  - intros n st He. repeat constructor.
  - intros res err rest n st He. repeat constructor.
  - intros res rest n st He Hp. repeat constructor.
  - intros res rest n st r hits nT e He Hp Hc d. cbn [fst snd].
    constructor; [reflexivity|]. apply Forall_app. split; [|repeat constructor].
    pose proof (deliver_items onItem hits 0%nat (length hits) nT
                  (withScrollID (enter st) (ScrollId r))) as Hi.
    fold d in Hi. rewrite Hi. apply Forall_forall. intros ev Hin.
    apply list_elem_of_fmap in Hin as (c & -> & _). reflexivity.
  - intros res rest n st r hits nT He Hp Hc d s IH. cbn [fst snd].
    constructor; [reflexivity|]. apply Forall_app. split.
    + pose proof (deliver_items onItem hits 0%nat (length hits) nT
                    (withScrollID (enter st) (ScrollId r))) as Hi.
      fold d in Hi. rewrite Hi. apply Forall_forall. intros ev Hin.
      apply list_elem_of_fmap in Hin as (c & -> & _). reflexivity.
    + constructor; [reflexivity|exact IH].
Qed.

Lemma loopSteps_closing_views (tr : list (@Event Query Sorter)) :
  Forall (fun ev => loopStep ev = true) tr ->
  releases tr = [] /\ deferredClears tr = 0%nat.
Proof.
  induction 1 as [|ev tr Hev _ [IHr IHd]]; [split; reflexivity|].
  destruct ev; try discriminate; split; assumption.
Qed.

(** The cursor id the loop ends with is the id of the last page read. *)
Lemma scroll_lastId ctx : forall responses n (st : @Locals Query Sorter CbState),
  scrollID (scroll onItem ctx responses n st).2 =
    default (scrollID st) (last (pageIds (scroll onItem ctx responses n st).1.1)).
Proof.
  apply (scroll_cases onItem ctx (fun _ _ st out =>
    scrollID out.2 = default (scrollID st) (last (pageIds out.1.1)))).
  - intros responses n st Hne. reflexivity.
  - intros n st He. simpl. by destruct (enter_frame st) as (_ & _ & -> & _).
  - intros res err rest n st He. cbn [fst snd].
    destruct (enter_frame st) as (_ & _ & Hid & _).
    destruct (stored_frame (enter st) res) as (_ & _ & Hs & _).
    destruct (is_EOF err); simpl; rewrite Hs; exact Hid.
  - intros res rest n st He Hp. cbn [fst snd].
    destruct (stored_frame (enter st) res) as (_ & _ & -> & _).
    destruct (enter_frame st) as (_ & _ & -> & _).
    simpl. rewrite Hp. reflexivity.
  - intros res rest n st r hits nT e He Hp Hc d. cbn [fst snd].
    destruct (round_fetches (svc (enter st)) res r hits nT d.1 []
                (Some e) Hp) as [_ Hi].
    { apply deliver_items. }
    rewrite Hi. simpl.
    destruct (deliver_frame onItem hits 0%nat (length hits) nT
                (withScrollID (enter st) (ScrollId r))) as [_ Hid].
    exact Hid.
  - intros res rest n st r hits nT He Hp Hc d s IH. cbn [fst snd].
    destruct (round_fetches (svc (enter st)) res r hits nT d.1 s.1.1
                None Hp) as [_ Hi].
    { apply deliver_items. }
    rewrite Hi, IH, last_cons.
    destruct (deliver_frame onItem hits 0%nat (length hits) nT
                (withScrollID (enter st) (ScrollId r))) as [_ Hid].
    fold d in Hid. rewrite Hid. simpl.
    by destruct (last (pageIds s.1.1)).
Qed.

(** The closing steps, exit by exit. *)
Lemma EnumerateItems_tail (eng : Engine) indexName (query : Query)
    (sorter : option Sorter) cb0 :
  let s := scroll onItem (ctxErr eng) (scrollDo eng) 0
             (initial indexName query sorter cb0) in
  let run := EnumerateItems onItem eng indexName query sorter cb0 in
  trace run =
    s.1.1 ++
    match s.1.2 with
    | ExitLoop => (ClearScroll eng (scrollID s.2)).1
    | _ => []
    end ++ [EvDeferredClear] /\
  scrollID (final run) = scrollID s.2 /\
  result run =
    match s.1.2 with
    | ExitLoop => Returned (ErrorOrNil (errs (final run)))
    | ExitReturn e => Returned e
    | ExitPanic p => Panicked p
    end.
Proof.
  intros s run. subst run. unfold EnumerateItems.
  fold (initial indexName query sorter cb0). fold s.
  destruct s as [[evs ex] st]. cbn [fst snd].
  destruct ex as [|err|p]; [|auto|auto].
  destruct (ClearScroll eng (scrollID st)) as [cevs cerr]. auto.
Qed.

(** What the exits show in the trace and the result. *)
Lemma EnumerateItems_exit_flags (eng : Engine) indexName (query : Query)
    (sorter : option Sorter) cb0 :
  let s := scroll onItem (ctxErr eng) (scrollDo eng) 0
             (initial indexName query sorter cb0) in
  let run := EnumerateItems onItem eng indexName query sorter cb0 in
  match s.1.2 with
  | ExitLoop => cancelled (trace run) = false /\ isPanic (result run) = false
  | ExitReturn _ => cancelled (trace run) = true
  | ExitPanic _ => isPanic (result run) = true
  end.
Proof.
  intros s run.
  destruct (EnumerateItems_tail eng indexName query sorter cb0)
    as (Htr & _ & Hres).
  cbv zeta in Htr, Hres. fold s run in Htr, Hres.
  pose proof (scroll_exit onItem (ctxErr eng) (scrollDo eng) 0%nat
                (initial indexName query sorter cb0)) as Hexit.
  cbv zeta in Hexit. fold s in Hexit.
  destruct s.1.2 as [|e|p].
  - rewrite Htr, Hres, !cancelled_app, Hexit. split; [|reflexivity].
    unfold ClearScroll. by destruct (String.eqb _ _).
  - destruct Hexit as (e' & evs0 & _ & Hevs & _).
    rewrite Htr, Hevs, !cancelled_app. simpl. by rewrite orb_true_r.
  - by rewrite Hres.
Qed.

(** X3. The pass ends with the cursor id of the last page it read (empty
    when it read none).  The explicit release is made exactly when the
    loop was left without cancellation or panic and that id is not
    empty, once, for that id; releasing without a cursor is a no-op. *)
Theorem EnumerateItems_releases_last_cursor (eng : Engine) indexName
    (query : Query) (sorter : option Sorter) cb0 :
  let run := EnumerateItems onItem eng indexName query sorter cb0 in
  let id := scrollID (final run) in
  id = default "" (last (pageIds (trace run))) /\
  releases (trace run) =
    if cancelled (trace run) || isPanic (result run) || String.eqb id ""
    then [] else [(id, clearScrollDo eng id)].
Proof.
  intros run id.
  destruct (EnumerateItems_tail eng indexName query sorter cb0)
    as (Htr & Hid & _).
  pose proof (EnumerateItems_exit_flags eng indexName query sorter cb0) as Hfl.
  cbv zeta in Htr, Hid, Hfl. fold run in Htr, Hid, Hfl. fold id in Hid.
  pose proof (scroll_loopSteps (ctxErr eng) (scrollDo eng) 0%nat
                (initial indexName query sorter cb0)) as Hloop.
  apply loopSteps_closing_views in Hloop as [Hrel _].
  pose proof (scroll_lastId (ctxErr eng) (scrollDo eng) 0%nat
                (initial indexName query sorter cb0)) as Hlast.
  rewrite <- Hid in Hlast. cbn [scrollID initial] in Hlast.
  set (s := scroll onItem (ctxErr eng) (scrollDo eng) 0
              (initial indexName query sorter cb0)) in *.
  assert (Hids : pageIds (trace run) = pageIds s.1.1).
  { rewrite Htr, !pageIds_app.
    destruct s.1.2; simpl; rewrite ?app_nil_r; try reflexivity.
    unfold ClearScroll. destruct (String.eqb _ _); simpl;
      by rewrite app_nil_r. }
  split; [by rewrite Hids|].
  pose proof (f_equal releases Htr) as Hr.
  unfold releases in Hr at 2. rewrite !omap_app in Hr.
  fold (releases s.1.1) in Hr. rewrite Hrel in Hr. cbn [app] in Hr.
  rewrite Hr. clear Hr Htr Hids.
  destruct s.1.2 as [|e|p].
  - destruct Hfl as [-> ->]. rewrite <- Hid. unfold ClearScroll. simpl.
    by destruct (String.eqb id "").
  - by rewrite Hfl.
  - rewrite Hfl, orb_true_r. reflexivity.
Qed.

(** X4. However the pass is left (end of stream, fetch error, callback
    error, cancellation, panic), the deferred clear of the scroll
    service runs, once, as the very last step. *)
Theorem EnumerateItems_deferred_clear_last (eng : Engine) indexName
    (query : Query) (sorter : option Sorter) cb0 :
  let run := EnumerateItems onItem eng indexName query sorter cb0 in
  last (trace run) = Some EvDeferredClear /\
  deferredClears (trace run) = 1%nat.
Proof.
  intros run.
  destruct (EnumerateItems_tail eng indexName query sorter cb0) as (Htr & _).
  cbv zeta in Htr. fold run in Htr.
  pose proof (scroll_loopSteps (ctxErr eng) (scrollDo eng) 0%nat
                (initial indexName query sorter cb0)) as Hloop.
  apply loopSteps_closing_views in Hloop as [_ Hdef].
  rewrite Htr. split.
  - rewrite !app_assoc. apply last_snoc.
  - unfold deferredClears in *. rewrite !omap_app, !length_app, Hdef.
    destruct (scroll onItem _ _ _ _).1.2; try reflexivity.
    unfold ClearScroll. by destruct (String.eqb _ _).
Qed.

(** The inner loop adds at most one error, a callback error. *)
Lemma deliver_failures hits : forall idx nB nT (st : @Locals Query Sorter CbState),
  failures (deliver onItem hits idx nB nT st).1 = [] \/
  exists c, failures (deliver onItem hits idx nB nT st).1 = [Wrap c "onItem"].
Proof.
  induction hits as [|hit rest IH]; intros idx nB nT st; [by left|].
  rewrite deliver_cons. cbv zeta.
  destruct (onItem _ _ _ _ _).1 as [e|] eqn:He; cbn [fst].
  - right. exists e. reflexivity.
  - apply (IH (S idx) nB nT (afterCall st _ _)).
Qed.

(** The loop adds at most one error: a fetch error or a callback error. *)
Lemma scroll_one_error ctx : forall responses n (st : @Locals Query Sorter CbState),
  errs st = [] ->
  errs (scroll onItem ctx responses n st).2 = [] \/
  exists c, errs (scroll onItem ctx responses n st).2 = [Wrap c "Do"] \/
            errs (scroll onItem ctx responses n st).2 = [Wrap c "onItem"].
Proof.
  apply (scroll_cases onItem ctx (fun _ _ st out =>
    errs st = [] ->
    errs out.2 = [] \/
    exists c, errs out.2 = [Wrap c "Do"] \/ errs out.2 = [Wrap c "onItem"])).
  - intros responses n st Hne He. congruence.
  - intros n st He _. left. simpl. by destruct (enter_frame st) as (-> & _).
  - intros res err rest n st He _. cbn [snd].
    destruct (enter_frame st) as (Hent & _).
    destruct (stored_frame (enter st) res) as (Hs & _).
    destruct (is_EOF err); [left; congruence|].
    right. exists err. left. simpl. by rewrite Hs, Hent, He.
  - intros res rest n st He Hp _. left. cbn [snd].
    destruct (stored_frame (enter st) res) as (-> & _).
    by destruct (enter_frame st) as (-> & _).
  - intros res rest n st r hits nT e He Hp Hc d _. cbn [snd].
    pose proof (deliver_errs onItem hits 0%nat (length hits) nT
                  (withScrollID (enter st) (ScrollId r))) as Hd.
    fold d in Hd. cbn [errs withScrollID] in Hd.
    destruct (enter_frame st) as (Hent & _). rewrite Hent, He in Hd.
    destruct (deliver_failures hits 0%nat (length hits) nT
                (withScrollID (enter st) (ScrollId r))) as [Hf|[c Hf]];
      fold d in Hf; rewrite Hd, Hf; [by left|right; eauto].
  - intros res rest n st r hits nT He Hp Hc d s IH _. cbn [snd].
    pose proof (deliver_errs onItem hits 0%nat (length hits) nT
                  (withScrollID (enter st) (ScrollId r))) as Hd.
    fold d in Hd. cbn [errs withScrollID] in Hd.
    destruct (enter_frame st) as (Hent & _). rewrite Hent, He in Hd.
    destruct (deliver_failures hits 0%nat (length hits) nT
                (withScrollID (enter st) (ScrollId r))) as [Hf|[c Hf]];
      fold d in Hf; rewrite Hf in Hd; simpl in Hd.
    + apply IH. exact Hd.
    + assert (Hs : s = ([], ExitLoop, d.2)).
      { apply scroll_stop. rewrite Hd. discriminate. }
      rewrite Hs. cbn [snd]. right. exists c. right. exact Hd.
Qed.

(** X5. The aggregate a pass ends with holds at most two errors: at most
    one from the loop, which is either a fetch error wrapped as "Do" or
    a callback error wrapped as "onItem", followed by at most one from
    the explicit release, wrapped as "ClearScroll". *)
Theorem EnumerateItems_at_most_two_errors (eng : Engine) indexName
    (query : Query) (sorter : option Sorter) cb0 :
  let run := EnumerateItems onItem eng indexName query sorter cb0 in
  exists loopErr releaseErr : option error,
    errs (final run) = option_list loopErr ++ option_list releaseErr /\
    (forall e, loopErr = Some e ->
       exists c, e = Wrap c "Do" \/ e = Wrap c "onItem") /\
    (forall e, releaseErr = Some e -> exists c, e = Wrap c "ClearScroll").
Proof.
  intros run.
  destruct (EnumerateItems_shape onItem eng indexName query sorter cb0)
    as (tail & _ & Hclose & Herrs & _).
  cbv zeta in Herrs. fold run in Herrs.
  assert (Htail : exists releaseErr,
            failures tail = option_list releaseErr /\
            forall e, releaseErr = Some e -> exists c, e = Wrap c "ClearScroll").
  { destruct Hclose as [->|(id & [re|] & ->)].
    - exists None. split; [reflexivity|discriminate].
    - exists (Some (Wrap re "ClearScroll")). split; [reflexivity|].
      intros e [= <-]. eauto.
    - exists None. split; [reflexivity|discriminate]. }
  destruct Htail as (releaseErr & Hrel & Hform).
  destruct (scroll_one_error (ctxErr eng) (scrollDo eng) 0%nat
              (initial indexName query sorter cb0) eq_refl)
    as [Hnone|(c & [Hdo|Hcb])].
  - exists None, releaseErr. rewrite Herrs, Hnone, Hrel.
    split; [reflexivity|]. split; [discriminate|exact Hform].
  - exists (Some (Wrap c "Do")), releaseErr. rewrite Herrs, Hdo, Hrel.
    split; [reflexivity|]. split; [|exact Hform]. intros e [= <-]. eauto.
  - exists (Some (Wrap c "onItem")), releaseErr. rewrite Herrs, Hcb, Hrel.
    split; [reflexivity|]. split; [|exact Hform]. intros e [= <-]. eauto.
Qed.

Lemma unreadableEnds_items r (cs : list Call) (tr : list (@Event Query Sorter)) :
  unreadableEnds r tr -> unreadableEnds r (map EvItem cs ++ tr).
Proof. intros Htr. induction cs as [|c cs IH]; [exact Htr|]. exact IH. Qed.

(** In the loop's trace an answer that cannot be read is the last step,
    and the loop is left by a nil dereference. *)
Lemma scroll_unreadableEnds ctx r (tail : list (@Event Query Sorter)) :
  unreadableEnds r tail ->
  forall responses n (st : @Locals Query Sorter CbState),
    ((scroll onItem ctx responses n st).1.2 = ExitPanic NilDereference ->
     tail = [EvDeferredClear] /\ r = Panicked NilDereference) ->
    unreadableEnds r ((scroll onItem ctx responses n st).1.1 ++ tail).
Proof.
  intros Htail.
  apply (scroll_cases onItem ctx (fun _ _ _ out =>
    (out.1.2 = ExitPanic NilDereference ->
     tail = [EvDeferredClear] /\ r = Panicked NilDereference) ->
    unreadableEnds r (out.1.1 ++ tail))).
  - intros responses n st Hne _. exact Htail.
  - intros n st He _. exact Htail.
  - intros res err rest n st He _. exact Htail.
  - intros res rest n st He Hp Hex. cbn [fst snd app unreadableEnds].
    split; [|exact Htail]. intros _. by apply Hex.
  - intros res rest n st r0 hits nT e He Hp Hc d _.
    cbn [fst snd app unreadableEnds].
    split; [intros Habs; congruence|]. rewrite <- app_assoc.
    pose proof (deliver_items onItem hits 0%nat (length hits) nT
                  (withScrollID (enter st) (ScrollId r0))) as Hi.
    fold d in Hi. rewrite Hi. apply unreadableEnds_items. exact Htail.
  - intros res rest n st r0 hits nT He Hp Hc d s IH Hex.
    cbn [fst snd app unreadableEnds].
    split; [intros Habs; congruence|]. rewrite <- app_assoc.
    pose proof (deliver_items onItem hits 0%nat (length hits) nT
                  (withScrollID (enter st) (ScrollId r0))) as Hi.
    fold d in Hi. rewrite Hi. apply unreadableEnds_items.
    cbn [app unreadableEnds]. apply IH. exact Hex.
Qed.

Lemma unreadableEnds_split r (tr1 : list (@Event Query Sorter)) sv res tr2 :
  unreadableEnds r (tr1 ++ EvDo sv res None :: tr2) ->
  derefPage res = None ->
  tr2 = [EvDeferredClear] /\ r = Panicked NilDereference.
Proof.
  induction tr1 as [|ev tr1 IH]; cbn [app unreadableEnds].
  - intros [Hhd _] Hp. by apply Hhd.
  - destruct ev as [sv' res' [e|]| | | |]; try exact IH.
    intros [_ Htl]. by apply IH.
Qed.

(** X6. When a fetch comes back with a nil error and an answer whose
    hits section or whose total is missing (hits without a total is what
    the engine sends when the total is not tracked), the pass panics
    with a nil dereference at that point: nothing of that answer reaches
    the callback, no select and no explicit release is made, and the
    deferred clear is the one step that still runs. *)
Theorem EnumerateItems_unreadable_answer_panics (eng : Engine) indexName
    (query : Query) (sorter : option Sorter) cb0 tr1 sv res tr2 :
  let run := EnumerateItems onItem eng indexName query sorter cb0 in
  trace run = tr1 ++ EvDo sv res None :: tr2 ->
  derefPage res = None ->
  result run = Panicked NilDereference /\ tr2 = [EvDeferredClear].
Proof.
  intros run Htrace Hp.
  destruct (EnumerateItems_tail eng indexName query sorter cb0)
    as (Htr & _ & Hr).
  cbv zeta in Htr, Hr. fold run in Htr, Hr.
  assert (Hends : unreadableEnds (result run) (trace run)).
  { rewrite Htr. apply scroll_unreadableEnds.
    - destruct (scroll onItem _ _ _ _).1.2; try exact I.
      unfold ClearScroll. destruct (String.eqb _ _); exact I.
    - intros Hex. rewrite Hex in Hr. rewrite Hex. auto. }
  rewrite Htrace in Hends.
  destruct (unreadableEnds_split _ tr1 sv res tr2 Hends Hp) as [-> ->].
  auto.
Qed.

Lemma fetchErrorEnds_quiet (tr : list (@Event Query Sorter)) :
  Forall (fun ev => quiet ev = true) tr -> fetchErrorEnds tr.
Proof.
  induction 1 as [|ev tr Hq _ IH]; [exact I|].
  split; [|exact IH]. destruct ev; try discriminate; exact I.
Qed.

Lemma fetchErrorEnds_items (cs : list Call) (tr : list (@Event Query Sorter)) :
  fetchErrorEnds tr -> fetchErrorEnds (map EvItem cs ++ tr).
Proof.
  intros Htr. induction cs as [|c cs IH]; [exact Htr|]. split; [exact I|exact IH].
Qed.

Lemma scroll_fetchErrorEnds ctx (tail : list (@Event Query Sorter)) :
  Forall (fun ev => quiet ev = true) tail ->
  forall responses n (st : @Locals Query Sorter CbState),
    fetchErrorEnds ((scroll onItem ctx responses n st).1.1 ++ tail).
Proof.
  intros Hq.
  apply (scroll_cases onItem ctx (fun _ _ _ out =>
    fetchErrorEnds (out.1.1 ++ tail))).
  - intros responses n st Hne. by apply fetchErrorEnds_quiet.
  - intros n st He. split; [exact Hq|]. by apply fetchErrorEnds_quiet.
  - intros res err rest n st He. split; [exact Hq|]. by apply fetchErrorEnds_quiet.
  - intros res rest n st He Hp. split; [exact I|]. by apply fetchErrorEnds_quiet.
  - intros res rest n st r hits nT e He Hp Hc d. cbn [fst snd app].
    split; [exact I|]. rewrite <- app_assoc.
    pose proof (deliver_items onItem hits 0%nat (length hits) nT
                  (withScrollID (enter st) (ScrollId r))) as Hi.
    fold d in Hi. rewrite Hi. apply fetchErrorEnds_items.
    split; [exact I|]. by apply fetchErrorEnds_quiet.
  - intros res rest n st r hits nT He Hp Hc d s IH. cbn [fst snd app].
    split; [exact I|]. rewrite <- app_assoc.
    pose proof (deliver_items onItem hits 0%nat (length hits) nT
                  (withScrollID (enter st) (ScrollId r))) as Hi.
    fold d in Hi. rewrite Hi. apply fetchErrorEnds_items.
    split; [exact I|]. exact IH.
Qed.

Lemma fetchErrorEnds_split (tr1 : list (@Event Query Sorter)) sv res e tr2 :
  fetchErrorEnds (tr1 ++ EvDo sv res (Some e) :: tr2) ->
  Forall (fun ev => quiet ev = true) tr2.
Proof.
  induction tr1 as [|ev tr1 IH]; simpl; intros [Hhd Htl]; auto.
Qed.

(** Nothing has failed before a step that is not quiet. *)
Lemma stops_no_failure_before (tr1 : list (@Event Query Sorter)) ev tr2 :
  stopsAfterFailure (tr1 ++ ev :: tr2) -> quiet ev = false ->
  failures tr1 = [].
Proof.
  induction tr1 as [|ev1 tr1 IH]; simpl; intros [Hhd Htl] Hq; [reflexivity|].
  unfold failures. simpl. destruct (failure ev1) as [f|] eqn:Hf.
  - exfalso. specialize (Hhd ltac:(discriminate)).
    apply Forall_app in Hhd as [_ Hhd]. inversion Hhd as [|? ? Hev _].
    congruence.
  - by apply IH.
Qed.

(** X7. A fetch that comes back with an error is the last fetch: no
    callback invocation and no fetch follows it.  End of stream
    ([io.EOF] itself) adds nothing to the aggregate; any other error is
    its first entry, wrapped as "Do"; only a release error can follow. *)
Theorem EnumerateItems_fetch_error_ends_pass (eng : Engine) indexName
    (query : Query) (sorter : option Sorter) cb0 tr1 sv res e tr2 :
  let run := EnumerateItems onItem eng indexName query sorter cb0 in
  trace run = tr1 ++ EvDo sv res (Some e) :: tr2 ->
  Forall (fun ev => quiet ev = true) tr2 /\
  errs (final run) =
    (if is_EOF e then [] else [Wrap e "Do"]) ++ failures tr2.
Proof.
  intros run Htrace.
  destruct (EnumerateItems_shape onItem eng indexName query sorter cb0)
    as (tail & Htr & Hclose & _).
  cbv zeta in Htr. fold run in Htr.
  pose proof (EnumerateItems_errs onItem eng indexName query sorter cb0)
    as Herrs.
  cbv zeta in Herrs. fold run in Herrs.
  split.
  - apply (fetchErrorEnds_split tr1 sv res e).
    rewrite <- Htrace, Htr. apply scroll_fetchErrorEnds.
    by apply closing_quiet.
  - assert (Hbefore : failures tr1 = []).
    { apply (stops_no_failure_before tr1 (EvDo sv res (Some e)) tr2);
        [|reflexivity].
      rewrite <- Htrace, Htr. apply scroll_stops. by apply closing_quiet. }
    rewrite Herrs, Htrace, failures_app, Hbefore.
    unfold failures. simpl. by destruct (is_EOF e).
Qed.

End EnumerateMore.

(** ** The lookups, on every path *)

Section UnmarshalMore.
Context {Query Target : Type}.
Variable searchDo : @SearchRequest Query -> option SearchResult * option error.
Variable json_Unmarshal : RawMessage -> Target -> option error * Target.

(** What both lookups share: success means the decoder accepted the
    first hit; the decoder runs at most once; without it the target is
    not touched; a failing search is wrapped as "Do". *)
Lemma unmarshalFirst_paths rq target :
  let l := unmarshalFirst searchDo json_Unmarshal rq target in
  (lk_result l = Returned None ->
   exists r sh hit rest,
     searchDo rq = (Some r, None) /\ Hits r = Some sh /\
     sh_Hits sh = hit :: rest /\ SearchResult_TotalHits (Some r) <> 0 /\
     json_Unmarshal (Source hit) target = (None, lk_target l) /\
     lk_decoded l = [Source hit]) /\
  (lk_decoded l = [] -> lk_target l = target) /\
  (length (lk_decoded l) <= 1)%nat /\
  (forall e, (searchDo rq).2 = Some e ->
     l = {| lk_result := Returned (Some (Wrap e "Do"));
            lk_target := target; lk_decoded := [] |}).
Proof.
  intros l. subst l. unfold unmarshalFirst.
  destruct (searchDo rq) as [res [e|]]; cbn [snd].
  { repeat split; try discriminate; auto. intros e' [= <-]. reflexivity. }
  destruct (SearchResult_TotalHits res =? 0) eqn:Hz.
  { repeat split; try discriminate; auto. }
  apply Z.eqb_neq in Hz.
  destruct res as [r|]; [|repeat split; try discriminate; auto].
  destruct (Hits r) as [sh|] eqn:Hh; [|repeat split; try discriminate; auto].
  destruct (sh_Hits sh) as [|hit rest] eqn:Hs;
    [repeat split; try discriminate; auto|].
  destruct (json_Unmarshal (Source hit) target) as [[ue|] target'] eqn:Hu;
    cbn [lk_result lk_target lk_decoded errors_Wrap].
  - repeat split; try discriminate; auto.
  - split; [|repeat split; try discriminate; auto].
    intros _. exists r, sh, hit, rest. repeat split; auto.
Qed.

(** X8. For [UnmarshalOne] and [UnmarshalMostRecent] alike: a nil result
    means the search succeeded with a nonzero total and the decoder
    accepted the source of the first hit, which is what the target then
    holds; the decoder is called at most once, and when it is not
    called the target is left as it was; a failing search is returned
    wrapped as "Do". *)
Theorem lookups_paths indexName query timestampField target :
  let one := UnmarshalOne searchDo json_Unmarshal indexName query target in
  let recent := UnmarshalMostRecent searchDo json_Unmarshal indexName query
                  timestampField target in
  ((lk_result one = Returned None ->
    exists r sh hit rest,
      searchDo (requestOne indexName query) = (Some r, None) /\
      Hits r = Some sh /\ sh_Hits sh = hit :: rest /\
      SearchResult_TotalHits (Some r) <> 0 /\
      json_Unmarshal (Source hit) target = (None, lk_target one) /\
      lk_decoded one = [Source hit]) /\
   (lk_decoded one = [] -> lk_target one = target) /\
   (length (lk_decoded one) <= 1)%nat /\
   (forall e, (searchDo (requestOne indexName query)).2 = Some e ->
      one = {| lk_result := Returned (Some (Wrap e "Do"));
               lk_target := target; lk_decoded := [] |})) /\
  ((lk_result recent = Returned None ->
    exists r sh hit rest,
      searchDo (requestMostRecent indexName query timestampField) =
        (Some r, None) /\
      Hits r = Some sh /\ sh_Hits sh = hit :: rest /\
      SearchResult_TotalHits (Some r) <> 0 /\
      json_Unmarshal (Source hit) target = (None, lk_target recent) /\
      lk_decoded recent = [Source hit]) /\
   (lk_decoded recent = [] -> lk_target recent = target) /\
   (length (lk_decoded recent) <= 1)%nat /\
   (forall e,
      (searchDo (requestMostRecent indexName query timestampField)).2 =
        Some e ->
      recent = {| lk_result := Returned (Some (Wrap e "Do"));
                  lk_target := target; lk_decoded := [] |})).
Proof.
  intros one recent. split.
  - apply (unmarshalFirst_paths (requestOne indexName query) target).
  - apply (unmarshalFirst_paths
             (requestMostRecent indexName query timestampField) target).
Qed.

End UnmarshalMore.

(** ** [EnsureIndexWithMapping] *)

(** X9. [EnsureIndexWithMapping] returns nil exactly when the index
    exists already or its creation is acknowledged; the create request
    is sent exactly when the existence check succeeds and says no, so an
    index that exists is left as it is, whatever the mapping. *)
Theorem EnsureIndexWithMapping_nil_iff
    (indexExistsDo : string -> bool * option error)
    (createIndexDo : string -> string -> option IndicesCreateResult * option error)
    (indexName mapping : string) :
  let out := EnsureIndexWithMapping indexExistsDo createIndexDo indexName
               mapping in
  (out.1 = Returned None <->
   indexExistsDo indexName = (true, None) \/
   (indexExistsDo indexName = (false, None) /\
    createIndexDo indexName mapping =
      (Some {| Acknowledged := true |}, None))) /\
  (In (AskCreate indexName mapping) out.2 <->
   indexExistsDo indexName = (false, None)) /\
  (forall index body, In (AskCreate index body) out.2 ->
     index = indexName /\ body = mapping).
Proof.
  intros out. subst out. unfold EnsureIndexWithMapping.
  destruct (indexExistsDo indexName) as [[|] [e|]]; cbn [negb].
  - split; [|split].
    + split; [discriminate|]. intros [H|[H _]]; discriminate.
    + split; [intros [H|[]]; discriminate|discriminate].
    + intros index body [H|[]]. discriminate.
  - split; [|split].
    + split; [auto|reflexivity].
    + split; [intros [H|[]]; discriminate|discriminate].
    + intros index body [H|[]]. discriminate.
  - split; [|split].
    + split; [discriminate|]. intros [H|[H _]]; discriminate.
    + split; [intros [H|[]]; discriminate|discriminate].
    + intros index body [H|[]]. discriminate.
  - destruct (createIndexDo indexName mapping) as [[[[|]]|] [e|]];
      cbn [negb fst snd]; (split; [|split]);
      try (split; [discriminate|intros [H|[_ H]]; discriminate]);
      try (split; [intros _; reflexivity|intros _; right; left; reflexivity]);
      try (intros index body [H|[[= <- <-]|[]]]; [discriminate|auto]).
    split; [intros _; right; auto|reflexivity].
Qed.

(** ** The indexing loops *)

Section DoIndexFacts.
Context {Doc World : Type}.
Variable indexDo : @IndexRequest Doc -> World -> option error * World.

(** The loop sends the entries in order and stops at the first refusal. *)
Lemma indexEach_sentInOrder mk message entries : forall w,
  sentInOrder mk message entries (indexEach indexDo mk message entries w).
Proof.
  unfold sentInOrder.
  induction entries as [|[idx dat] rest IH]; intros w; [reflexivity|].
  simpl. destruct (indexDo (mk idx dat) w) as [[e|] w'].
  - cbn [fst snd errors_Wrap]. exists 0%nat, (idx, dat), e. auto.
  - specialize (IH w').
    destruct (indexEach indexDo mk message rest w') as [[r log] w''].
    cbn [fst snd] in *. destruct r as [err|].
    + destruct IH as (k & x & e & Hk & -> & ->).
      exists (S k), x, e. auto.
    + by rewrite IH.
Qed.

(** X10. Each of [DoIndex], [DoIndexWithNameProvider] and [DoCreate]
    sends one request per entry, in the order the entries are visited,
    with the entry's key as id and its value as body ([DoCreate] with
    op type "create", [DoIndexWithNameProvider] to the index the value
    names), and stops at the first request the engine refuses: it then
    returns that error wrapped, and no later entry is sent.  It returns
    nil only after every entry was sent and accepted. *)
Theorem indexing_loops_send_in_order indexName (IndexName : Doc -> string)
    entries w :
  sentInOrder
    (fun idx dat => {| ir_Index := indexName; ir_Id := idx; ir_OpType := "";
                       ir_Body := dat |})
    "Do [create" entries (DoIndex indexDo indexName entries w) /\
  sentInOrder
    (fun idx dat => {| ir_Index := IndexName dat; ir_Id := idx;
                       ir_OpType := ""; ir_Body := dat |})
    "Do [create" entries
    (DoIndexWithNameProvider indexDo IndexName entries w) /\
  sentInOrder
    (fun idx dat => {| ir_Index := indexName; ir_Id := idx;
                       ir_OpType := "create"; ir_Body := dat |})
    "Do [index]" entries (DoCreate indexDo indexName entries w).
Proof.
  repeat split; apply indexEach_sentInOrder.
Qed.

(** With an engine whose answer depends on the request alone, the loop
    succeeds exactly when every entry's request is accepted. *)
Lemma indexEach_nil_iff (answer : @IndexRequest Doc -> option error)
    mk message entries :
  (forall r w, indexDo r w = (answer r, w)) ->
  forall w,
    (indexEach indexDo mk message entries w).1.1 = None <->
    Forall (fun x => answer (mk x.1 x.2) = None) entries.
Proof.
  intros Hpure. induction entries as [|[idx dat] rest IH]; intros w.
  - split; [constructor|reflexivity].
  - simpl. rewrite Hpure. destruct (answer (mk idx dat)) as [e|] eqn:Ha.
    + cbn [fst]. split; [discriminate|].
      intros HF. inversion HF as [|? ? Hx _]. simpl in Hx. congruence.
    + specialize (IH w).
      destruct (indexEach indexDo mk message rest w) as [[r log] w''].
      cbn [fst] in *. rewrite IH. split.
      * intros HF. constructor; [exact Ha|exact HF].
      * intros HF. by inversion HF.
Qed.

(** X11. Go visits the entries of a map in no fixed order.  With an
    engine whose answer depends on the request alone, whether
    [DoIndex], [DoIndexWithNameProvider] and [DoCreate] return nil does
    not depend on that order: they do exactly when every entry's
    request is accepted.  (Which entries were sent before a refusal
    does depend on it.) *)
Theorem indexing_loops_order_independent
    (answer : @IndexRequest Doc -> option error) indexName
    (IndexName : Doc -> string) entries entries' w w' :
  (forall r v, indexDo r v = (answer r, v)) ->
  entries ≡ₚ entries' ->
  ((DoIndex indexDo indexName entries w).1.1 = None <->
   (DoIndex indexDo indexName entries' w').1.1 = None) /\
  ((DoIndexWithNameProvider indexDo IndexName entries w).1.1 = None <->
   (DoIndexWithNameProvider indexDo IndexName entries' w').1.1 = None) /\
  ((DoCreate indexDo indexName entries w).1.1 = None <->
   (DoCreate indexDo indexName entries' w').1.1 = None).
Proof.
  intros Hpure Hperm. unfold DoIndex, DoIndexWithNameProvider, DoCreate.
  repeat split; intros H;
    apply (indexEach_nil_iff answer _ _ _ Hpure);
    apply (indexEach_nil_iff answer _ _ _ Hpure) in H;
    (rewrite <- Hperm || rewrite Hperm); exact H.
Qed.

End DoIndexFacts.

(** ** The mapping body *)

(** X12. The body [buildPutMappingBody] builds has the single top-level
    key "properties", and the value type can be read back from it at the
    field's path: properties/key/type for an empty root,
    properties/root/properties/key/type otherwise.  [PutMapping] sends
    exactly this body for the index. *)
Theorem buildPutMappingBody_path (root key valueType : string) :
  let body := buildPutMappingBody root key valueType in
  dom body = {[ "properties" ]} /\
  jget (["properties"] ++
        (if String.eqb root "" then [] else [root; "properties"]) ++
        [key; "type"]) (JObject body) = Some (JString valueType) /\
  forall (putMappingDo : PutMappingRequest -> option error) index,
    PutMapping putMappingDo index root key valueType =
      putMappingDo {| pm_Index := index; pm_Body := body |}.
Proof.
  intros body. subst body. unfold buildPutMappingBody.
  destruct root as [|ch root]; cbn [String.length Nat.eqb negb String.eqb].
  - split; [by rewrite dom_insert_L, dom_empty_L, union_empty_r_L|].
    split; [|reflexivity].
    cbn [app jget]. rewrite lookup_insert_eq. cbn [jget].
    rewrite lookup_singleton_eq. cbn [jget].
    by rewrite lookup_singleton_eq.
  - split; [by rewrite dom_insert_L, dom_empty_L, union_empty_r_L|].
    split; [|reflexivity].
    cbn [app jget]. rewrite lookup_insert_eq. cbn [jget].
    rewrite lookup_singleton_eq. cbn [jget].
    rewrite lookup_singleton_eq. cbn [jget].
    rewrite lookup_singleton_eq. cbn [jget].
    by rewrite lookup_singleton_eq.
Qed.

(** ** The process-wide client *)

Section GetFacts.
Variable elastic_NewClient : ClientOptions -> option error.
Variable pingDo : string -> option PingResult * Z * option error.

(** X13. Once a call of [Get] has succeeded, the client it returned is
    the one built from that call's endpoint and credentials, and every
    later call returns this same client with a nil error, without
    creating or pinging anything and whatever its own arguments are. *)
Theorem Get_caches_first_client endpoint userName password interval sniff
    c st log :
  Get elastic_NewClient pingDo None endpoint userName password interval sniff =
    (GetReturned (Some c) None, st, log) ->
  st = Some c /\
  c = {| endpoint := endpoint; userName := userName;
         password := password |} /\
  forall (newClient' : ClientOptions -> option error)
         (pingDo' : string -> option PingResult * Z * option error)
         endpoint' userName' password' interval' sniff',
    Get newClient' pingDo' st endpoint' userName' password' interval' sniff' =
      (GetReturned (Some c) None, Some c, []).
Proof.
  unfold Get, NewClient.
  destruct (elastic_NewClient _) as [e|]; [discriminate|].
  cbn [errors_Wrap].
  destruct (pingDo _) as [[info code] [e|]]; [discriminate|].
  destruct info as [i|]; [|discriminate].
  intros [= <- <- _]. auto.
Qed.

(** X14. A call of [Get] leaves a client in the package variable
    exactly when it returns that client with a nil error.  When it
    returns an error the client returned is nil, nothing had been cached
    before, nothing is cached after (the next call tries again), and the
    error is the engine client's constructor error wrapped twice as
    "NewClient" or the ping error wrapped as "Ping". *)
Theorem Get_caches_only_on_success inst endpoint userName password interval
    sniff :
  let out := Get elastic_NewClient pingDo inst endpoint userName password
               interval sniff in
  (forall c, out.1.2 = Some c <-> out.1.1 = GetReturned (Some c) None) /\
  (forall client e,
     out.1.1 = GetReturned client (Some e) ->
     client = None /\ inst = None /\ out.1.2 = None /\
     exists e0, e = Wrap (Wrap e0 "NewClient") "NewClient" \/
                e = Wrap e0 "Ping").
Proof.
  intros out. subst out. unfold Get, NewClient.
  destruct inst as [c0|].
  { cbn [fst snd]. split; [|discriminate].
    intros c. split; [intros [= <-]; reflexivity|intros [= <-]; reflexivity]. }
  destruct (elastic_NewClient _) as [e|]; cbn [errors_Wrap fst snd].
  { split; [intros c; split; discriminate|].
    intros client e' [= <- <-]. eauto 6. }
  destruct (pingDo _) as [[info code] [e|]]; cbn [errors_Wrap fst snd].
  { split; [intros c; split; discriminate|].
    intros client e' [= <- <-]. eauto 6. }
  destruct info as [i|]; cbn [fst snd].
  - split; [|discriminate].
    intros c. split; [intros [= <-]; reflexivity|intros [= <-]; reflexivity].
  - split; [intros c; split; discriminate|discriminate].
Qed.

End GetFacts.

(** ** What [GetIndices] returns *)

Section GetIndicesMore.
Context {Regexp : Type}.
Variable regexp_Compile : string -> option Regexp.
Variable FindString : Regexp -> string -> string.
Variable http_NewRequest : string -> string -> option error.
Variable client_Do : Request -> Response + error.

(** One prefix adds its matches, in catalog order, after what its key
    held, and touches no other key. *)
Lemma matchLines_value r prefix lines :
  forall (result : gmap string (list string)) k,
    default [] (matchLines FindString r prefix lines result !! k) =
      default [] (result !! k) ++
      (if decide (prefix = k) then matchesOf FindString r lines else []).
Proof.
  induction lines as [|line lines IH]; intros result k; simpl.
  - destruct (decide (prefix = k)); by rewrite app_nil_r.
  - rewrite IH. unfold matchesOf. cbn [omap list_omap].
    destruct (negb (String.length (FindString r line) =? 0)%nat).
    + destruct (decide (prefix = k)) as [->|Hne].
      * rewrite lookup_insert_eq. simpl. by rewrite <- app_assoc.
      * rewrite lookup_insert_ne by exact Hne. reflexivity.
    + reflexivity.
Qed.

Lemma matchPrefixes_value lines prefixes :
  forall (result : gmap string (list string)) k,
    default [] (matchPrefixes regexp_Compile FindString lines prefixes result
                  !! k) =
      default [] (result !! k) ++
      matchesFor regexp_Compile FindString lines prefixes k.
Proof.
  unfold matchesFor.
  induction prefixes as [|p prefixes IH]; intros result k; simpl.
  - by rewrite app_nil_r.
  - destruct (regexp_Compile (indexPattern p)) as [r|]; simpl.
    + rewrite IH, matchLines_value. by rewrite <- app_assoc.
    + by rewrite app_nil_r.
Qed.

(** X15. When the catalog is served, [GetIndices] returns a nil error
    and the map that has, for every key, the matches of that key's
    pattern in the lines the scanner yields (those before the first
    line that does not fit its buffer), in catalog order, each with its
    leading and trailing white space trimmed, once for every time the
    key occurs among the prefixes before the first prefix that does not
    compile; a key without such matches is absent.  So only prefixes
    given are keys, and a prefix given twice gets every match twice. *)
Theorem GetIndices_value c prefixes resp :
  http_NewRequest "GET" (catalogURL c) = None ->
  client_Do (catalogRequest c) = inl resp ->
  exists m,
    GetIndices regexp_Compile FindString http_NewRequest client_Do c prefixes =
      (Some m, None) /\
    forall k,
      m !! k =
        entryOf (matchesFor regexp_Compile FindString (scanLines (Body resp))
                   prefixes k).
Proof.
  intros Hreq Hdo. unfold GetIndices. rewrite Hreq. cbv zeta. rewrite Hdo.
  eexists. split; [reflexivity|]. intros k.
  pose proof (matchPrefixes_value (scanLines (Body resp)) prefixes ∅ k) as Hv.
  rewrite lookup_empty in Hv. simpl in Hv.
  destruct (matchPrefixes regexp_Compile FindString (scanLines (Body resp))
              prefixes ∅ !! k) as [v|] eqn:Hk.
  - simpl in Hv. rewrite <- Hv.
    destruct (matchPrefixes_keys regexp_Compile FindString
                (scanLines (Body resp)) prefixes ∅) with k v as [Hne _].
    + intros k' v'. by rewrite lookup_empty.
    + exact Hk.
    + destruct v; [congruence|reflexivity].
  - simpl in Hv. by rewrite <- Hv.
Qed.

End GetIndicesMore.

(** ** The further properties on sample environments *)

Lemma EnumerateItems_delivers_each_hit_once_witness :
  map delivery
    (calls (trace (MoreSamples.run (Samples.engine Samples.liveCtx None)))) =
  [("a", 3, false, None); ("b", 3, true, None); ("c", 3, true, None)].
Proof.
  exact (EnumerateItems_delivers_each_hit_once MoreSamples.cbAccept
           (Samples.engine Samples.liveCtx None) "idx" tt None 0%nat
           (fun _ _ _ _ _ => eq_refl)).
Defined.

Lemma EnumerateItems_unreadable_answer_panics_witness :
  let run := MoreSamples.run MoreSamples.noTotalSecond in
  result run = Panicked NilDereference /\
  drop 4 (trace run) = [EvDeferredClear].
Proof.
  exact (EnumerateItems_unreadable_answer_panics MoreSamples.cbAccept
           MoreSamples.noTotalSecond "idx" tt None 0%nat
           (take 3 (trace (MoreSamples.run MoreSamples.noTotalSecond)))
           (svc_ScrollId (ScrollService "idx" tt None) "cursor-1")
           (Some {| Hits := Some {| sh_TotalHits := None;
                                    sh_Hits := [Samples.hit "b"] |};
                    ScrollId := "cursor-2" |})
           (drop 4 (trace (MoreSamples.run MoreSamples.noTotalSecond)))
           eq_refl eq_refl).
Defined.

Lemma EnumerateItems_fetch_error_ends_pass_witness :
  Forall (fun ev : @Event unit unit => quiet ev = true) [EvDeferredClear] /\
  errs (final (MoreSamples.run MoreSamples.timeoutFirst)) =
    [Wrap (Opaque "context deadline exceeded") "Do"].
Proof.
  exact (EnumerateItems_fetch_error_ends_pass MoreSamples.cbAccept
           MoreSamples.timeoutFirst "idx" tt None 0%nat
           [] (ScrollService "idx" tt None) None
           (Opaque "context deadline exceeded") [EvDeferredClear] eq_refl).
Defined.

Lemma lookups_paths_witness :
  exists r sh hit rest,
    Samples.searchAlways Samples.oneOfThree (requestOne "idx" tt) =
      (Some r, None) /\
    Hits r = Some sh /\ sh_Hits sh = hit :: rest /\
    SearchResult_TotalHits (Some r) <> 0 /\
    Samples.decodeCopy (Source hit) "old" = (None, "{a:1}") /\
    lk_decoded (UnmarshalOne (Samples.searchAlways Samples.oneOfThree)
                  Samples.decodeCopy "idx" tt "old") = [Source hit].
Proof.
  exact (proj1 (proj1 (lookups_paths (Samples.searchAlways Samples.oneOfThree)
                         Samples.decodeCopy "idx" tt "timestamp" "old"))
           eq_refl).
Defined.

Lemma indexing_loops_order_independent_witness :
  ((DoIndex MoreSamples.indexEngine "docs" MoreSamples.threeDocs 0%nat).1.1 =
     None <->
   (DoIndex MoreSamples.indexEngine "docs" MoreSamples.threeDocsOtherOrder
      0%nat).1.1 = None) /\
  ((DoIndexWithNameProvider MoreSamples.indexEngine (fun _ => "docs")
      MoreSamples.threeDocs 0%nat).1.1 = None <->
   (DoIndexWithNameProvider MoreSamples.indexEngine (fun _ => "docs")
      MoreSamples.threeDocsOtherOrder 0%nat).1.1 = None) /\
  ((DoCreate MoreSamples.indexEngine "docs" MoreSamples.threeDocs 0%nat).1.1 =
     None <->
   (DoCreate MoreSamples.indexEngine "docs" MoreSamples.threeDocsOtherOrder
      0%nat).1.1 = None).
Proof.
  exact (indexing_loops_order_independent MoreSamples.indexEngine
           MoreSamples.refuseTwo "docs" (fun _ => "docs")
           MoreSamples.threeDocs MoreSamples.threeDocsOtherOrder 0%nat 0%nat
           (fun _ _ => eq_refl)
           (perm_swap ("2", "{b}") ("1", "{a}") [("3", "{c}")])).
Defined.

(** The order shows in what was sent before the refusal. *)
Example indexing_order_shows_in_log :
  map (fun x => ir_Id x.1)
    (DoIndex MoreSamples.indexEngine "docs" MoreSamples.threeDocs 0%nat).1.2 =
    ["1"; "2"] /\
  map (fun x => ir_Id x.1)
    (DoIndex MoreSamples.indexEngine "docs" MoreSamples.threeDocsOtherOrder
       0%nat).1.2 = ["2"].
Proof. split; reflexivity. Qed.

Lemma Get_caches_first_client_witness :
  Some Samples.es = Some Samples.es /\
  Samples.es = Samples.es /\
  forall (newClient' : ClientOptions -> option error)
         (pingDo' : string -> option PingResult * Z * option error)
         endpoint' userName' password' interval' sniff',
    Get newClient' pingDo' (Some Samples.es) endpoint' userName' password'
      interval' sniff' =
      (GetReturned (Some Samples.es) None, Some Samples.es, []).
Proof.
  exact (Get_caches_first_client MoreSamples.newClientOk MoreSamples.pingOk
           "http://localhost:9200" "elastic" "secret" 10 false
           Samples.es (Some Samples.es)
           [StepNewClient
              {| opt_Sniff := false; opt_URL := "http://localhost:9200";
                 opt_HealthcheckInterval := 10;
                 opt_BasicAuth := ("elastic", "secret") |};
            StepPing "http://localhost:9200"; StepDebug 200 "7.17.0"]
           eq_refl).
Defined.

Lemma Get_caches_only_on_success_witness :
  (None : option ElasticClientImpl) = None /\
  (None : option ElasticClientImpl) = None /\
  (Get MoreSamples.newClientOk MoreSamples.pingDown None
     "http://localhost:9200" "elastic" "secret" 10 false).1.2 = None /\
  exists e0,
    Wrap (Opaque "no Elasticsearch node available") "Ping" =
      Wrap (Wrap e0 "NewClient") "NewClient" \/
    Wrap (Opaque "no Elasticsearch node available") "Ping" = Wrap e0 "Ping".
Proof.
  exact (proj2 (Get_caches_only_on_success MoreSamples.newClientOk
                  MoreSamples.pingDown None "http://localhost:9200"
                  "elastic" "secret" 10 false)
           None (Wrap (Opaque "no Elasticsearch node available") "Ping")
           eq_refl).
Defined.

Lemma GetIndices_value_witness :
  exists m,
    Samples.getIndices Samples.serveCatalog ["alpha"; "gamma"; "alpha"] =
      (Some m, None) /\
    forall k,
      m !! k =
        entryOf (matchesFor regexp.Compile regexp.FindString
                   (scanLines Samples.catalog) ["alpha"; "gamma"; "alpha"] k).
Proof.
  exact (GetIndices_value regexp.Compile regexp.FindString
           Samples.newRequestOk Samples.serveCatalog Samples.es
           ["alpha"; "gamma"; "alpha"] {| Body := Samples.catalog |}
           eq_refl eq_refl).
Defined.

(** The patterns of the sample prefixes are within the fragment of
    package [regexp] that is modelled. *)
Example sample_patterns_supported :
  forallb (fun prefix => regexp.supported (indexPattern prefix))
    ["alpha"; "beta"; "gamma"] = true.
Proof. reflexivity. Qed.

(** A prefix given twice gets every match twice. *)
Example matchesFor_repeated_prefix :
  matchesFor regexp.Compile regexp.FindString (scanLines Samples.catalog)
    ["alpha"; "gamma"; "alpha"] "alpha" =
    ["alpha-0"; "alpha-1"; "alpha-0"; "alpha-1"] /\
  matchesFor regexp.Compile regexp.FindString (scanLines Samples.catalog)
    ["alpha"; "gamma"; "alpha"] "gamma" = ["gamma-0"] /\
  matchesFor regexp.Compile regexp.FindString (scanLines Samples.catalog)
    ["alpha"; "gamma"; "alpha"] "beta" = [].
Proof. repeat split; vm_compute; reflexivity. Qed.

(** A page that comes without a cursor id leaves the service without
    one: the fetch after it carries no id. *)
Example cursor_of_page_without_id :
  map svc_scrollId (fetches (trace (MoreSamples.run MoreSamples.emptyIdSecond))) =
    [""; "cursor-1"; ""; "cursor-3"].
Proof. reflexivity. Qed.

(** An answer with a hit but no total: the hit does not reach the
    callback, the loop's cursor id stays that of the page before, and
    the service holds the id [Do] stored. *)
Example run_with_answer_without_total :
  let run := MoreSamples.run MoreSamples.noTotalSecond in
  map c_item (calls (trace run)) = ["a"] /\
  scrollID (final run) = "cursor-1" /\
  svc_scrollId (svc (final run)) = "cursor-2".
Proof. repeat split. Qed.

(** A trace in which the select comes before the items of its page is
    not one with the select at the page boundary. *)
Example select_before_delivery_is_off_boundary (sv : @ScrollSvc unit unit) c :
  ~ checkedAtBoundary
      [EvDo sv (Samples.page 3 "cursor-1" [Samples.hit "a"]).1 None;
       EvSelect None; EvItem c; EvDeferredClear].
Proof.
  intros [Hpage _]. destruct (Hpage eq_refl) as [(_ & _ & _ & Hshort) _].
  destruct Hshort as (c' & Hlast & _); [simpl; lia|discriminate].
Qed.

(** White space above the ASCII range is trimmed too; a byte that does
    not start a white-space rune stays. *)
Example trim_unicode_space :
  TrimSpace (" " +:+ MoreSamples.nbsp +:+ "alpha-1" +:+ MoreSamples.nbsp +:+ " ") =
    "alpha-1" /\
  TrimSpace (String (ascii_of_N 194) " alpha-1 ") =
    String (ascii_of_N 194) " alpha-1".
Proof. split; vm_compute; reflexivity. Qed.

(** With a buffer of 8 bytes a line of 7 bytes is read; one byte more
    and the scanner stops there, and the lines after it are lost. *)
Example scan_stops_at_long_line :
  scanLinesFrom 8 [] 0
    (list_ascii_of_string ("x" +:+ Samples.nl +:+ "1234567" +:+ Samples.nl +:+ "y")) =
    ["x"; "1234567"; "y"] /\
  scanLinesFrom 8 [] 0
    (list_ascii_of_string ("x" +:+ Samples.nl +:+ "12345678" +:+ Samples.nl +:+ "y")) =
    ["x"].
Proof. split; reflexivity. Qed.
